(** * sidecred: configuration parsing and validation (package [config])

    A shallow embedding of [src/config/config.go] and the properties of its
    versioned parser, its shorthand normalizer and its structural validator.

    Conventions of the embedding.
    - A Go [string] and a Go [[]byte] (also [json.RawMessage]) are byte
      sequences: both are [string] here, [len] is [String.length].
    - A Go pointer [*T] is [ptr T], that is [option T]: [None] is [nil].
      Reading a field through a nil pointer panics; [result] therefore has
      three outcomes: a returned value, a returned [error], a panic.
    - A Go slice is a [list]; the nil slice and the empty slice coincide
      (the code only takes [len] and ranges over them).
    - The two [map[...]struct{}] sets of [Validate] are [gset]s.
    - [fmt.Errorf] values are kept structured: one constructor of [error]
      per format string, holding the arguments that the format embeds.
    - The YAML decoder and the provider packages are outside the package:
      the functions that call them take them as [Decoder] and [Providers].

    The file has the embedding first, then the notions its statements are
    written with, the validation algorithm in the words of the
    specification, and sample collaborators and documents; the proofs
    follow. *)

From Stdlib Require Import ZArith String List Lia.
From stdpp Require Import base decidable option list gmap sets strings.

Open Scope string_scope.
Open Scope list_scope.

#[local] Set Warnings "-clear-no-such-hyp".

(** * The embedding

    ** Pointers, errors and outcomes *)

Abbreviation ptr := option (only parsing).

(** The [error] values of the package, one constructor per [fmt.Errorf]
    call site; [%s] of a nested error keeps the nested error. *)
Inductive error : Type :=
| External (msg : string)
    (* an error value made outside this package (decoder, provider) *)
| MustBeDefined (field : string)
    (* "%q must be defined" *)
| UnmarshalVersion (err : error)
    (* "unmarshal version: %s" *)
| UnknownVersion (v : Z)
    (* "unknown configuration version (v%d)" *)
| UnmarshalConfigVersion (v : Z) (err : error)
    (* "unmarshal config (v%d): %s" *)
| StoreUnknownType (i : nat) (t : string)
    (* "stores[%d]: unknown type %q" *)
| StoreDuplicate (i : nat) (alias : string)
    (* "stores[%d]: duplicate store %q" *)
| UndefinedStore (i : nat) (store : string)
    (* "requests[%d]: undefined store %q" *)
| CredsInvalid (i ii : nat) (err : error)
    (* "requests[%d]: creds[%d]: %s" *)
| CredsParseConfig (i ii : nat) (err : error)
    (* "requests[%d]: creds[%d]: parse config: %s" *)
| CredsInvalidConfig (i ii : nat) (err : error)
    (* "requests[%d]: creds[%d]: invalid config: %s" *)
| CredsDuplicated (i ii : nat) (store name : string)
    (* "requests[%d]: creds[%d]: duplicated request %+v" *)
| NotForLists (field : string)
    (* "%q should not be specified for lists" *)
| ListEntryType (i : nat)
    (* "list entry[%d]: request should not include %q", i, "type" *)
| UnknownType (t : string)
    (* "unknown type %q" *)
| UnmarshalConfig (err : error).
    (* "unmarshal config: %s" *)

(** What a call of this package does: it returns a value, returns an error,
    or panics on a nil pointer dereference. A function of result type
    [error] alone is a [result unit], [Ok tt] standing for the nil error.
    The external collaborators (decoder, providers) are taken to return:
    their results are sums and options. *)
Inductive result (A : Type) : Type :=
| Ok (a : A)
| Error (err : error)
| Panic.
Arguments Ok {A} a.
Arguments Error {A} err.
Arguments Panic {A}.

Definition bind {A B : Type} (m : result A) (k : A -> result B) : result B :=
  match m with
  | Ok a => k a
  | Error err => Error err
  | Panic => Panic
  end.

Notation "'do' x <- m ; k" := (bind m (fun x => k))
  (at level 10, x pattern, m at level 100, k at level 200,
   format "'[v' 'do'  x  <-  m ; '/' k ']'").

(** [p.f] for a pointer [p]: the pointee, or a panic when [p] is nil. *)
Definition deref {A : Type} (p : ptr A) : result A :=
  match p with
  | Some a => Ok a
  | None => Panic
  end.

(** [for i, x := range xs { body }] with a loop-carried state and an early
    [return err] (or panic) from the body. *)
Fixpoint range_from {A St : Type} (body : nat -> A -> St -> result St)
    (i : nat) (xs : list A) (s : St) : result St :=
  match xs with
  | [] => Ok s
  | x :: xs' => do s' <- body i x s; range_from body (S i) xs' s'
  end.

Definition range {A St : Type} (body : nat -> A -> St -> result St)
    (xs : list A) (s : St) : result St :=
  range_from body 0 xs s.

(** ** Package [sidecred]: the types and constants the configuration uses *)

Module sidecred.

(** Modelled from the spec: the store-type tags of package [sidecred]
    ([sidecred.Inprocess], [sidecred.SSM], [sidecred.SecretsManager],
    [sidecred.GithubSecrets]); their declarations are not part of
    [config.go]. The tags are those the spec lists as recognized. *)
Definition StoreType : Type := string.
Definition Inprocess : StoreType := "inprocess".
Definition SSM : StoreType := "ssm".
Definition SecretsManager : StoreType := "secretsManager".
Definition GithubSecrets : StoreType := "githubSecrets".

(** Modelled from the spec: the credential-type tags of package
    [sidecred], as the spec lists them. *)
Definition CredentialType : Type := string.
Definition AWSSTS : CredentialType := "aws:sts".
Definition GithubAccessToken : CredentialType := "github:access-token".
Definition GithubDeployKey : CredentialType := "github:deploy-key".
Definition ArtifactoryAccessToken : CredentialType := "artifactory:access-token".
Definition Randomized : CredentialType := "random".

(** Modelled from the spec: [sidecred.StoreConfig], a store kind, an
    explicit name and an opaque store-specific configuration. *)
Record StoreConfig : Type := {
  Store_Type : StoreType;
  Store_Name : string;
  Store_Config : string
}.

(** Modelled from the spec: [StoreConfig.Alias], "a derived or explicit
    identifier": the explicit name when there is one, else the store type
    (the spec's end-to-end example refers to a store declared by its type
    alone under the alias ["inprocess"]). *)
Definition Alias (s : StoreConfig) : string :=
  if decide (Store_Name s = "") then Store_Type s else Store_Name s.

(** Modelled from the spec: [sidecred.CredentialRequest], the atomic unit
    of work; [RotationWindow] is an optional duration, [Config] the raw
    configuration (a [json.RawMessage]). *)
Record CredentialRequest : Type := {
  Type_ : CredentialType;
  Name : string;
  RotationWindow : ptr Z;
  Config : string
}.

(** Modelled from the spec: [sidecred.CredentialsMap], a store alias bound
    to a sequence of credential requests. *)
Record CredentialsMap : Type := {
  Store : string;
  Credentials : list (ptr CredentialRequest)
}.

(** Modelled from the spec: [sidecred.Validatable], the capability every
    provider configuration implements ("check semantic validity of my own
    fields"); [None] is the nil error. *)
Class Validatable (C : Type) : Type :=
  Validate : C -> option error.

(** An interface value of type [sidecred.Validatable]: a configuration of
    some type together with its method. *)
Record ValidatableValue : Type := Pack {
  dynamic_type : Type;
  dynamic_methods : Validatable dynamic_type;
  dynamic_value : dynamic_type
}.

Definition Validate_value (c : ValidatableValue) : option error :=
  @Validate _ (dynamic_methods c) (dynamic_value c).

End sidecred.

(** A provider package ([sts], [github], [artifactory], [random]) as this
    package sees it: a request-configuration type that is [Validatable], and
    what [sidecred.UnmarshalConfig] yields when it decodes a raw
    configuration into a fresh value of that type. *)
Record Provider : Type := {
  RequestConfig : Type;
  RequestConfig_Validatable : sidecred.Validatable RequestConfig;
  UnmarshalInto : string -> error + RequestConfig
}.

(** The five provider configurations [parseProviderConfig] dispatches to. *)
Class Providers : Type := {
  sts_RequestConfig : Provider;
  github_AccessTokenRequestConfig : Provider;
  github_DeployKeyRequestConfig : Provider;
  artifactory_RequestConfig : Provider;
  random_RequestConfig : Provider
}.

(** The YAML decoder ([sigs.k8s.io/yaml]), external to the package: what
    [yaml.Unmarshal] leaves in the [Version] field of the version probe, and
    what [yaml.UnmarshalStrict] leaves in a [*v1]. *)
Class Decoder (V1 : Type) : Type := {
  yaml_Unmarshal : string -> error + ptr Z;
  yaml_UnmarshalStrict : string -> error + ptr V1
}.

(** ** Package [config] *)

(** [credentialRequest] extends [sidecred.CredentialRequest]: the embedded
    pointer holds the inlined request (nil when the document gives none of
    its fields), [List] the requests that share the node's type. *)
Record credentialRequest : Type := {
  CredentialRequest : ptr sidecred.CredentialRequest;
  List : list (ptr sidecred.CredentialRequest)
}.

Record requestV1 : Type := {
  Store : string;
  Creds : list (ptr credentialRequest)
}.

Record v1 : Type := {
  Version : Z;
  CredentialNamespace : string;
  CredentialStores : list (ptr sidecred.StoreConfig);
  CredentialRequests : list (ptr requestV1)
}.

(** [credentialRequest.validate]. *)
Definition credentialRequest_validate (c : ptr credentialRequest) : result unit :=
  do c <- deref c;
  if decide (length (List c) = 0) then Ok tt
  else
    do inlined <- deref (CredentialRequest c);
    if decide (sidecred.Name inlined <> "") then Error (NotForLists "name")
    else if decide (0 < String.length (sidecred.Config inlined))
    then Error (NotForLists "config")
    else
      do _ <- range (fun i r (_ : unit) =>
                do r <- deref r;
                if decide (sidecred.Type_ r <> "") then Error (ListEntryType i)
                else Ok tt)
              (List c) tt;
      Ok tt.

(** [credentialRequest.flatten]. *)
Definition credentialRequest_flatten (c : ptr credentialRequest)
    : result (list (ptr sidecred.CredentialRequest)) :=
  do c <- deref c;
  if decide (length (List c) = 0) then Ok [CredentialRequest c]
  else
    range (fun _ r requests =>
      do inlined <- deref (CredentialRequest c);
      do r <- deref r;
      Ok (requests ++ [Some {|
        sidecred.Type_ := sidecred.Type_ inlined;
        sidecred.Name := sidecred.Name r;
        sidecred.RotationWindow := sidecred.RotationWindow r;
        sidecred.Config := sidecred.Config r |}]))
      (List c) [].

(** [requestV1.credentialsMap]. *)
Definition requestV1_credentialsMap (c : ptr requestV1)
    : result (ptr sidecred.CredentialsMap) :=
  do c <- deref c;
  do credentials <- range (fun _ cred credentials =>
      do flat <- credentialRequest_flatten cred;
      Ok (credentials ++ flat))
    (Creds c) [];
  Ok (Some {| sidecred.Store := Store c; sidecred.Credentials := credentials |}).

(** [v1.Namespace], [v1.Stores], [v1.Requests]. *)
Definition v1_Namespace (c : ptr v1) : result string :=
  do c <- deref c; Ok (CredentialNamespace c).

Definition v1_Stores (c : ptr v1) : result (list (ptr sidecred.StoreConfig)) :=
  do c <- deref c; Ok (CredentialStores c).

Definition v1_Requests (c : ptr v1) : result (list (ptr sidecred.CredentialsMap)) :=
  do c <- deref c;
  range (fun _ r out =>
      do m <- requestV1_credentialsMap r;
      Ok (out ++ [m]))
    (CredentialRequests c) [].

Section WithProviders.
Context {providers : Providers}.

(** [c = &P.RequestConfig{}] followed by [sidecred.UnmarshalConfig(config, c)]. *)
Definition unmarshal (P : Provider) (config : string)
    : result sidecred.ValidatableValue :=
  match UnmarshalInto P config with
  | inr c => Ok (sidecred.Pack (RequestConfig P) (RequestConfig_Validatable P) c)
  | inl err => Error (UnmarshalConfig err)
  end.

(** [parseProviderConfig]. *)
Definition parseProviderConfig (t : sidecred.CredentialType) (config : string)
    : result sidecred.ValidatableValue :=
  if decide (t = sidecred.AWSSTS) then unmarshal sts_RequestConfig config
  else if decide (t = sidecred.GithubAccessToken)
  then unmarshal github_AccessTokenRequestConfig config
  else if decide (t = sidecred.GithubDeployKey)
  then unmarshal github_DeployKeyRequestConfig config
  else if decide (t = sidecred.ArtifactoryAccessToken)
  then unmarshal artifactory_RequestConfig config
  else if decide (t = sidecred.Randomized) then unmarshal random_RequestConfig config
  else Error (UnknownType t).

(** The store-type switch of [Validate]. *)
Definition known_store_type (t : sidecred.StoreType) : bool :=
  bool_decide (t = sidecred.Inprocess) || bool_decide (t = sidecred.SSM)
  || bool_decide (t = sidecred.SecretsManager)
  || bool_decide (t = sidecred.GithubSecrets).

(** The body of the loop over [c.CredentialStores]; the state is the
    [stores] set. *)
Definition validate_store (i : nat) (s : ptr sidecred.StoreConfig)
    (stores : gset string) : result (gset string) :=
  do s <- deref s;
  if known_store_type (sidecred.Store_Type s) then
    if decide (sidecred.Alias s ∈ stores)
    then Error (StoreDuplicate i (sidecred.Alias s))
    else Ok ({[ sidecred.Alias s ]} ∪ stores)
  else Error (StoreUnknownType i (sidecred.Store_Type s)).

(** The body of the loop over [cred.flatten()]; the state is the
    [requests] set, keyed by [requestsKey{store, name}]. *)
Definition validate_flattened (i ii : nat) (store : string)
    (r : ptr sidecred.CredentialRequest) (requests : gset (string * string))
    : result (gset (string * string)) :=
  do r <- deref r;
  match parseProviderConfig (sidecred.Type_ r) (sidecred.Config r) with
  | Panic => Panic
  | Error err => Error (CredsParseConfig i ii err)
  | Ok c =>
      match sidecred.Validate_value c with
      | Some err => Error (CredsInvalidConfig i ii err)
      | None =>
          let key := (store, sidecred.Name r) in
          if decide (key ∈ requests)
          then Error (CredsDuplicated i ii store (sidecred.Name r))
          else Ok ({[ key ]} ∪ requests)
      end
  end.

(** The body of the loop over [request.Creds]. *)
Definition validate_cred (i : nat) (store : string) (ii : nat)
    (cred : ptr credentialRequest) (requests : gset (string * string))
    : result (gset (string * string)) :=
  match credentialRequest_validate cred with
  | Panic => Panic
  | Error err => Error (CredsInvalid i ii err)
  | Ok _ =>
      do flat <- credentialRequest_flatten cred;
      range (fun _ r requests => validate_flattened i ii store r requests)
        flat requests
  end.

(** The body of the loop over [c.CredentialRequests]. *)
Definition validate_request (stores : gset string) (i : nat)
    (request : ptr requestV1) (requests : gset (string * string))
    : result (gset (string * string)) :=
  do request <- deref request;
  if decide (Store request ∈ stores) then
    range (validate_cred i (Store request)) (Creds request) requests
  else Error (UndefinedStore i (Store request)).

(** [v1.Validate]. *)
Definition v1_Validate (c : ptr v1) : result unit :=
  do c <- deref c;
  if decide (CredentialNamespace c = "") then Error (MustBeDefined "namespace")
  else if decide (length (CredentialStores c) = 0)
  then Error (MustBeDefined "stores")
  else
    do stores <- range validate_store (CredentialStores c) ∅;
    do _ <- range (validate_request stores) (CredentialRequests c) ∅;
    Ok tt.

End WithProviders.

Section WithDecoder.
Context {decoder : Decoder v1}.

(** [Parse]: the configuration it returns is the [*v1] held by the
    [sidecred.Config] interface value. *)
Definition Parse (b : string) : result (ptr v1) :=
  match yaml_Unmarshal b with
  | inl err => Error (UnmarshalVersion err)
  | inr None => Error (MustBeDefined "version")
  | inr (Some version) =>
      if decide (version = 1%Z) then
        match yaml_UnmarshalStrict b with
        | inl err => Error (UnmarshalConfigVersion version err)
        | inr cfg => Ok cfg
        end
      else Error (UnknownVersion version)
  end.

End WithDecoder.

(** * Notions the statements are written with *)

(** The request a list entry resolves to: the node's shared type with the
    entry's own name, rotation window and configuration. *)
Definition resolved (inlined r : sidecred.CredentialRequest)
    : sidecred.CredentialRequest := {|
  sidecred.Type_ := sidecred.Type_ inlined;
  sidecred.Name := sidecred.Name r;
  sidecred.RotationWindow := sidecred.RotationWindow r;
  sidecred.Config := sidecred.Config r
|}.

(** The bodies of the loops of [flatten], [validate], [credentialsMap] and
    [Requests], by name. *)
Definition flatten_body (c : credentialRequest) :=
  fun (_ : nat) (r : ptr sidecred.CredentialRequest)
      (requests : list (ptr sidecred.CredentialRequest)) =>
    do inlined <- deref (CredentialRequest c);
    do r <- deref r;
    Ok (requests ++ [Some (resolved inlined r)]).

Definition validate_body :=
  fun (i : nat) (r : ptr sidecred.CredentialRequest) (_ : unit) =>
    do r <- deref r;
    if decide (sidecred.Type_ r <> "") then Error (ListEntryType i) else Ok tt.

Definition credentials_body :=
  fun (_ : nat) (cred : ptr credentialRequest)
      (credentials : list (ptr sidecred.CredentialRequest)) =>
    do flat <- credentialRequest_flatten cred; Ok (credentials ++ flat).

Definition requests_body :=
  fun (_ : nat) (r : ptr requestV1) (out : list (ptr sidecred.CredentialsMap)) =>
    do m <- requestV1_credentialsMap r; Ok (out ++ [m]).

(** A store of one of the four known kinds. *)
Definition known_store (s : sidecred.StoreConfig) : Prop :=
  sidecred.Store_Type s ∈
    [sidecred.Inprocess; sidecred.SSM; sidecred.SecretsManager; sidecred.GithubSecrets].

(** The aliases of a sequence of stores, in order. *)
Definition aliases (ss : list sidecred.StoreConfig) : list string :=
  map sidecred.Alias ss.

(** The [requestsKey] of a flattened request. *)
Definition key (store : string) (r : sidecred.CredentialRequest) : string * string :=
  (store, sidecred.Name r).

Definition keys (store : string) (rs : list sidecred.CredentialRequest)
    : list (string * string) :=
  map (key store) rs.

(** What [flatten] returns for a node, when it returns. *)
Definition node_out (n : ptr credentialRequest) : list (ptr sidecred.CredentialRequest) :=
  match credentialRequest_flatten n with
  | Ok l => l
  | _ => []
  end.

(** [flatten] returns for the node: it does not panic. *)
Definition node_returns (n : ptr credentialRequest) : Prop :=
  exists l, credentialRequest_flatten n = Ok l.

(** The [sidecred.CredentialsMap] of a request group. *)
Definition credentials_map (g : requestV1) : ptr sidecred.CredentialsMap :=
  Some {| sidecred.Store := Store g;
          sidecred.Credentials := flat_map node_out (Creds g) |}.

(** The flattened requests of a node, as far as [flatten] returns them and
    they are present. *)
Definition node_flat (n : ptr credentialRequest) : list sidecred.CredentialRequest :=
  match credentialRequest_flatten n with
  | Ok l => omap id l
  | _ => []
  end.

(** The flattened requests of the credential entries of one group. *)
Definition creds_flat (ns : list (ptr credentialRequest))
    : list sidecred.CredentialRequest :=
  flat_map node_flat ns.

(** The keys of the flattened requests of a request group, and of a
    sequence of groups, in document order. *)
Definition group_keys (g : ptr requestV1) : list (string * string) :=
  match g with
  | Some g => keys (Store g) (creds_flat (Creds g))
  | None => []
  end.

Definition doc_keys (gs : list (ptr requestV1)) : list (string * string) :=
  flat_map group_keys gs.

(** The flattened requests that [Requests] returned, each with the store of
    its credentials map, in order. *)
Definition flattened (ms : list (ptr sidecred.CredentialsMap))
    : list (string * ptr sidecred.CredentialRequest) :=
  flat_map (fun m =>
      match m with
      | Some m => map (pair (sidecred.Store m)) (sidecred.Credentials m)
      | None => []
      end) ms.

(** The (store, name) key of a flattened request under its store. *)
Definition request_key (sr : string * sidecred.CredentialRequest) : string * string :=
  (sr.1, sidecred.Name sr.2).

(** The flattened requests of a group, and of a sequence of groups, each
    under the store of its group, in document order. *)
Definition group_requests (g : requestV1) : list (string * sidecred.CredentialRequest) :=
  map (pair (Store g)) (creds_flat (Creds g)).

Definition doc_requests (gs : list requestV1) : list (string * sidecred.CredentialRequest) :=
  flat_map group_requests gs.

Section PassingChecks.
Context {providers : Providers}.

(** A flattened request passes the provider checks: its configuration
    decodes into the schema registered for its type, and the decoded
    configuration validates. *)
Definition provider_ok (r : sidecred.CredentialRequest) : Prop :=
  exists c, parseProviderConfig (sidecred.Type_ r) (sidecred.Config r) = Ok c /\
            sidecred.Validate_value c = None.

(** The loop over the flattened requests of one node. *)
Definition flattened_loop (i ii : nat) (store : string) :=
  fun (_ : nat) (r : ptr sidecred.CredentialRequest)
      (requests : gset (string * string)) =>
    validate_flattened i ii store r requests.

(** A credential entry passes every check but the duplicate check: it passes
    shorthand validation, it flattens, to requests that are all present, and
    every flattened request passes the provider checks. *)
Definition node_passes (n : ptr credentialRequest) : Prop :=
  credentialRequest_validate n = Ok tt /\
  credentialRequest_flatten n = Ok (map Some (node_flat n)) /\
  Forall provider_ok (node_flat n).

(** A request group passes every check but the duplicate check: its store
    is the alias of a store, and each of its credential entries passes. *)
Definition group_passes (stores : list string) (g : ptr requestV1) : Prop :=
  exists g', g = Some g' /\ Store g' ∈ stores /\ Forall node_passes (Creds g').

End PassingChecks.

(** A credential type the registry knows. *)
Definition recognized (t : sidecred.CredentialType) : Prop :=
  t ∈ [sidecred.AWSSTS; sidecred.GithubAccessToken; sidecred.GithubDeployKey;
       sidecred.ArtifactoryAccessToken; sidecred.Randomized].

(** A credential entry none of whose pointers that [flatten] reads is nil:
    the entry is present and, if it has a list, so are its inlined request
    and every list entry. A request group is complete when it is present
    and its credential entries are complete. *)
Definition complete_node (n : ptr credentialRequest) : Prop :=
  exists e, n = Some e /\
    (List e = [] \/ (is_Some (CredentialRequest e) /\ Forall is_Some (List e))).

Definition complete_group (p : ptr requestV1) : Prop :=
  exists g, p = Some g /\ Forall complete_node (Creds g).

(** A configuration without what [Validate] has no use for: the rotation
    window of every request, inlined or in a list, and the version. *)
Definition forget_request (r : sidecred.CredentialRequest) : sidecred.CredentialRequest :=
  {| sidecred.Type_ := sidecred.Type_ r;
     sidecred.Name := sidecred.Name r;
     sidecred.RotationWindow := None;
     sidecred.Config := sidecred.Config r |}.

Definition forget_node (n : credentialRequest) : credentialRequest :=
  {| CredentialRequest := forget_request <$> CredentialRequest n;
     List := map (fmap forget_request) (List n) |}.

Definition forget_group (g : requestV1) : requestV1 :=
  {| Store := Store g; Creds := map (fmap forget_node) (Creds g) |}.

Definition forget_config (c : v1) : v1 :=
  {| Version := 0;
     CredentialNamespace := CredentialNamespace c;
     CredentialStores := CredentialStores c;
     CredentialRequests := map (fmap forget_group) (CredentialRequests c) |}.

Section Violations.
Context {providers : Providers}.

(** The keys [Validate] has recorded when it comes to the flattened request
    [k] of the credential entry [ii] of the request group [i]: those of the
    groups before [i], of the entries of the group before [ii], and of the
    flattened requests of the entry before [k]. *)
Definition keys_before (c : v1) (i ii k : nat) (g : requestV1)
    (flat : list (ptr sidecred.CredentialRequest)) : list (string * string) :=
  doc_keys (take i (CredentialRequests c)) ++
  keys (Store g) (creds_flat (take ii (Creds g))) ++
  keys (Store g) (omap id (take k flat)).

(** What an error of [Validate] says of the configuration: for each error,
    the fact at the position it names. *)
Inductive violation (c : v1) : error -> Prop :=
| violation_namespace :
    CredentialNamespace c = "" ->
    violation c (MustBeDefined "namespace")
| violation_stores :
    CredentialStores c = [] ->
    violation c (MustBeDefined "stores")
| violation_store_type (i : nat) (s : sidecred.StoreConfig) :
    CredentialStores c !! i = Some (Some s) ->
    ~ known_store s ->
    violation c (StoreUnknownType i (sidecred.Store_Type s))
| violation_store_alias (i j : nat) (s s' : sidecred.StoreConfig) :
    j < i ->
    CredentialStores c !! j = Some (Some s') ->
    CredentialStores c !! i = Some (Some s) ->
    sidecred.Alias s' = sidecred.Alias s ->
    violation c (StoreDuplicate i (sidecred.Alias s))
| violation_store_reference (i : nat) (g : requestV1) :
    CredentialRequests c !! i = Some (Some g) ->
    (forall s, Some s ∈ CredentialStores c -> sidecred.Alias s <> Store g) ->
    violation c (UndefinedStore i (Store g))
| violation_shorthand (i ii : nat) (g : requestV1) (n : ptr credentialRequest)
    (err : error) :
    CredentialRequests c !! i = Some (Some g) ->
    Creds g !! ii = Some n ->
    credentialRequest_validate n = Error err ->
    violation c (CredsInvalid i ii err)
| violation_parse (i ii : nat) (g : requestV1) (n : ptr credentialRequest)
    (flat : list (ptr sidecred.CredentialRequest)) (r : sidecred.CredentialRequest)
    (err : error) :
    CredentialRequests c !! i = Some (Some g) ->
    Creds g !! ii = Some n ->
    credentialRequest_flatten n = Ok flat ->
    Some r ∈ flat ->
    parseProviderConfig (sidecred.Type_ r) (sidecred.Config r) = Error err ->
    violation c (CredsParseConfig i ii err)
| violation_config (i ii : nat) (g : requestV1) (n : ptr credentialRequest)
    (flat : list (ptr sidecred.CredentialRequest)) (r : sidecred.CredentialRequest)
    (config : sidecred.ValidatableValue) (err : error) :
    CredentialRequests c !! i = Some (Some g) ->
    Creds g !! ii = Some n ->
    credentialRequest_flatten n = Ok flat ->
    Some r ∈ flat ->
    parseProviderConfig (sidecred.Type_ r) (sidecred.Config r) = Ok config ->
    sidecred.Validate_value config = Some err ->
    violation c (CredsInvalidConfig i ii err)
| violation_duplicate (i ii k : nat) (g : requestV1) (n : ptr credentialRequest)
    (flat : list (ptr sidecred.CredentialRequest)) (r : sidecred.CredentialRequest) :
    CredentialRequests c !! i = Some (Some g) ->
    Creds g !! ii = Some n ->
    credentialRequest_flatten n = Ok flat ->
    flat !! k = Some (Some r) ->
    key (Store g) r ∈ keys_before c i ii k g flat ->
    violation c (CredsDuplicated i ii (Store g) (sidecred.Name r)).

End Violations.

(** * The validation algorithm in the words of the specification *)

(** The documents of the specification's data model: every store, request
    group, credential entry and list entry is there, and a credential entry
    always has its singleton fields, empty or not. *)
Record spec_node : Type := {
  node_inlined : sidecred.CredentialRequest;
  node_list : list sidecred.CredentialRequest
}.

Record spec_group : Type := {
  group_store : string;
  group_creds : list spec_node
}.

Record spec_config : Type := {
  config_namespace : string;
  config_stores : list sidecred.StoreConfig;
  config_requests : list spec_group
}.

(** The [*v1] of such a document in which every pointer is present. (For a
    credential entry that gives none of its singleton fields the decoder
    leaves the embedded pointer nil instead: that [*v1] is not of this
    form.) *)
Definition go_node (n : spec_node) : ptr credentialRequest :=
  Some {| CredentialRequest := Some (node_inlined n); List := map Some (node_list n) |}.

Definition go_group (g : spec_group) : ptr requestV1 :=
  Some {| Store := group_store g; Creds := map go_node (group_creds g) |}.

Definition go_config (d : spec_config) : ptr v1 :=
  Some {| Version := 1;
          CredentialNamespace := config_namespace d;
          CredentialStores := map Some (config_stores d);
          CredentialRequests := map go_group (config_requests d) |}.

(** The violations of a sequence of entries, left to right: those of each
    entry given its index and the keys seen before it, the keys of an entry
    being seen from the next entry on. *)
Fixpoint in_order {A K : Type} (violations : nat -> list K -> A -> list error)
    (keys_of : A -> list K) (i : nat) (seen : list K) (xs : list A) : list error :=
  match xs with
  | [] => []
  | x :: xs' =>
      violations i seen x ++
      in_order violations keys_of (S i) (seen ++ keys_of x) xs'
  end.

(** What [Validate] returns for a list of violations in document order:
    nil when there is none, else the first one. *)
Definition first_violation (violations : list error) : result unit :=
  match violations with
  | [] => Ok tt
  | err :: _ => Error err
  end.

Section Specification.
Context {providers : Providers}.

(** 4.2: a node without a list is its own single request; a node with a
    list yields one request per entry, of the node's type. *)
Definition spec_flatten (n : spec_node) : list sidecred.CredentialRequest :=
  if decide (node_list n = []) then [node_inlined n]
  else map (resolved (node_inlined n)) (node_list n).

(** 4.2: a node with a list must have no name and no configuration of its
    own, and no entry of the list may declare a type. *)
Definition shorthand_violations (n : spec_node) : list error :=
  if decide (node_list n = []) then []
  else
    (if decide (sidecred.Name (node_inlined n) = "") then [] else [NotForLists "name"]) ++
    (if decide (sidecred.Config (node_inlined n) = "") then [] else [NotForLists "config"]) ++
    in_order (fun k (_ : list unit) r =>
                if decide (sidecred.Type_ r = "") then [] else [ListEntryType k])
             (fun _ => []) 0 [] (node_list n).

(** 4.3 and 4.4 step 4d: resolve and validate the provider configuration of
    a flattened request, then reject its (store, name) pair if seen. (The
    registry returns a configuration or an error: it has no third case.) *)
Definition request_violations (i ii : nat) (store : string)
    (seen : list (string * string)) (r : sidecred.CredentialRequest) : list error :=
  match parseProviderConfig (sidecred.Type_ r) (sidecred.Config r) with
  | Ok c =>
      match sidecred.Validate_value c with
      | Some err => [CredsInvalidConfig i ii err]
      | None => []
      end
  | Error err => [CredsParseConfig i ii err]
  | Panic => []
  end ++
  (if decide (key store r ∈ seen)
   then [CredsDuplicated i ii store (sidecred.Name r)] else []).

(** 4.4 steps 4b to 4d, for the credential entry [ii] of the group [i]. *)
Definition node_violations (i : nat) (store : string) (ii : nat)
    (seen : list (string * string)) (n : spec_node) : list error :=
  map (CredsInvalid i ii) (shorthand_violations n) ++
  in_order (fun _ => request_violations i ii store) (fun r => [key store r])
    0 seen (spec_flatten n).

(** 4.4 step 4, for the request group [i]: its store reference, checked
    once for the group, then its credential entries in order. *)
Definition group_violations (known : list string) (i : nat)
    (seen : list (string * string)) (g : spec_group) : list error :=
  (if decide (group_store g ∈ known) then [] else [UndefinedStore i (group_store g)]) ++
  in_order (node_violations i (group_store g))
    (fun n => keys (group_store g) (spec_flatten n)) 0 seen (group_creds g).

(** 4.4 step 3, for the store [i]. *)
Definition store_violations (i : nat) (seen : list string)
    (s : sidecred.StoreConfig) : list error :=
  (if known_store_type (sidecred.Store_Type s) then []
   else [StoreUnknownType i (sidecred.Store_Type s)]) ++
  (if decide (sidecred.Alias s ∈ seen) then [StoreDuplicate i (sidecred.Alias s)] else []).

(** 4.4: the violations of a document, in document order. *)
Definition violations (d : spec_config) : list error :=
  (if decide (config_namespace d = "") then [MustBeDefined "namespace"] else []) ++
  (if decide (config_stores d = []) then [MustBeDefined "stores"] else []) ++
  in_order store_violations (fun s => [sidecred.Alias s]) 0 [] (config_stores d) ++
  in_order (group_violations (aliases (config_stores d)))
    (fun g => keys (group_store g) (flat_map spec_flatten (group_creds g)))
    0 [] (config_requests d).

End Specification.

(** * Samples

    ** Sample collaborators, for closed examples *)

(** A provider whose configuration is the raw document itself and which
    accepts every configuration. *)
Definition permissive_provider : Provider := {|
  RequestConfig := string;
  RequestConfig_Validatable := fun _ => None;
  UnmarshalInto := fun config => inr config
|}.

(** A provider that decodes every document and accepts the non-empty ones. *)
Definition nonempty_provider : Provider := {|
  RequestConfig := string;
  RequestConfig_Validatable := fun config =>
    if decide (config = "") then Some (External "empty configuration") else None;
  UnmarshalInto := fun config => inr config
|}.

(** A registry for the examples: [aws:sts] wants a non-empty configuration,
    the other providers accept everything. *)
Definition sample_providers : Providers := {|
  sts_RequestConfig := nonempty_provider;
  github_AccessTokenRequestConfig := permissive_provider;
  github_DeployKeyRequestConfig := permissive_provider;
  artifactory_RequestConfig := permissive_provider;
  random_RequestConfig := permissive_provider
|}.

(** The zero value of [v1] with its [Version] set: what the decoder leaves
    for a document that gives the version and nothing else. *)
Definition v1_only_version : v1 := {|
  Version := 1;
  CredentialNamespace := "";
  CredentialStores := [];
  CredentialRequests := []
|}.

(** The decoder on three sample documents: one that gives version 1 alone,
    one that gives version 2, one without a version. Every other document is
    reported as malformed. *)
Definition sample_decoder : Decoder v1 := {|
  yaml_Unmarshal := fun b =>
    if decide (b = "version: 1") then inr (Some 1%Z)
    else if decide (b = "version: 2") then inr (Some 2%Z)
    else if decide (b = "namespace: ns") then inr None
    else inl (External "yaml: malformed document");
  yaml_UnmarshalStrict := fun b =>
    if decide (b = "version: 1") then inr (Some v1_only_version)
    else if decide (b = "version: 2")
    then inr (Some {| Version := 2; CredentialNamespace := "";
                     CredentialStores := []; CredentialRequests := [] |})
    else if decide (b = "namespace: ns")
    then inr (Some {| Version := 0; CredentialNamespace := "ns";
                     CredentialStores := []; CredentialRequests := [] |})
    else inl (External "yaml: malformed document")
|}.

(** ** Sample documents *)

(** [{name: a}] as a list entry. *)
Definition entry_a : sidecred.CredentialRequest :=
  {| sidecred.Type_ := ""; sidecred.Name := "a";
     sidecred.RotationWindow := None; sidecred.Config := "" |}.

(** [{name: b}] as a list entry. *)
Definition entry_b : sidecred.CredentialRequest :=
  {| sidecred.Type_ := ""; sidecred.Name := "b";
     sidecred.RotationWindow := None; sidecred.Config := "" |}.

(** [{type: random, name: a}] as a list entry: it restates a type. *)
Definition entry_typed : sidecred.CredentialRequest :=
  {| sidecred.Type_ := sidecred.Randomized; sidecred.Name := "a";
     sidecred.RotationWindow := None; sidecred.Config := "" |}.

(** [{type: random}]: the inlined fields of a list node. *)
Definition inlined_random : sidecred.CredentialRequest :=
  {| sidecred.Type_ := sidecred.Randomized; sidecred.Name := "";
     sidecred.RotationWindow := None; sidecred.Config := "" |}.

(** The spec's example [{type: random, list: [{name: a}, {name: b}]}]. *)
Definition node_random_ab : credentialRequest :=
  {| CredentialRequest := Some inlined_random; List := [Some entry_a; Some entry_b] |}.

(** [{type: random, name: x}]: the inlined fields of a node with a name. *)
Definition inlined_random_x : sidecred.CredentialRequest :=
  {| sidecred.Type_ := sidecred.Randomized; sidecred.Name := "x";
     sidecred.RotationWindow := None; sidecred.Config := "" |}.

(** [{type: random, name: x, list: [{name: a}]}]: both populated. *)
Definition node_both_populated : credentialRequest :=
  {| CredentialRequest := Some inlined_random_x; List := [Some entry_a] |}.

(** [{}]: no list and none of the inlined fields, so the embedded pointer
    stays nil. *)
Definition node_empty : credentialRequest :=
  {| CredentialRequest := None; List := [] |}.

(** An inlined request whose fields are all empty. *)
Definition inlined_no_fields : sidecred.CredentialRequest :=
  {| sidecred.Type_ := ""; sidecred.Name := "";
     sidecred.RotationWindow := None; sidecred.Config := "" |}.

(** [{type: ""}]: no list, and an inlined request whose fields are empty. *)
Definition node_empty_fields : credentialRequest :=
  {| CredentialRequest := Some inlined_no_fields; List := [] |}.

(** [{list: [{name: a}]}]: a list and none of the inlined fields. The
    decoder allocates the embedded [*sidecred.CredentialRequest] only when
    the document gives one of its fields, so it is nil here. *)
Definition node_list_only : credentialRequest :=
  {| CredentialRequest := None; List := [Some entry_a] |}.

(** [{list: [{type: random, name: a}]}]. *)
Definition node_list_only_typed : credentialRequest :=
  {| CredentialRequest := None; List := [Some entry_typed] |}.

(** [{type: random, name: r1, config: {}}]: the spec's singleton request. *)
Definition request_r1 : sidecred.CredentialRequest :=
  {| sidecred.Type_ := sidecred.Randomized; sidecred.Name := "r1";
     sidecred.RotationWindow := None; sidecred.Config := "{}" |}.

(** The credential entry that is this request. *)
Definition node_r1 : credentialRequest :=
  {| CredentialRequest := Some request_r1; List := [] |}.

(** [{type: inprocess}]: its alias is its type. *)
Definition store_inprocess : sidecred.StoreConfig :=
  {| sidecred.Store_Type := sidecred.Inprocess; sidecred.Store_Name := "";
     sidecred.Store_Config := "" |}.

(** [{type: ssm, name: inprocess}]: a store of another type under the same
    alias. *)
Definition store_ssm_named_inprocess : sidecred.StoreConfig :=
  {| sidecred.Store_Type := sidecred.SSM; sidecred.Store_Name := "inprocess";
     sidecred.Store_Config := "" |}.

(** [{type: vault, name: inprocess}]: a store of no known type. *)
Definition store_unknown_named_inprocess : sidecred.StoreConfig :=
  {| sidecred.Store_Type := "vault"; sidecred.Store_Name := "inprocess";
     sidecred.Store_Config := "" |}.

(** A version-1 document with the given stores and one request group for
    the store ["inprocess"] with the given credential entries. *)
Definition document (namespace : string) (stores : list sidecred.StoreConfig)
    (creds : list credentialRequest) : v1 :=
  {| Version := 1;
     CredentialNamespace := namespace;
     CredentialStores := map Some stores;
     CredentialRequests := [Some {| Store := "inprocess"; Creds := map Some creds |}] |}.

(** The spec's end-to-end example. *)
Definition document_r1 : v1 := document "ns" [store_inprocess] [node_r1].

(** [{type: random, list: [{name: b}]}]: a second list node, whose entry
    has the name of an entry of [node_random_ab]. *)
Definition node_random_b : credentialRequest :=
  {| CredentialRequest := Some inlined_random; List := [Some entry_b] |}.

(** Two list nodes of one request group that both declare ["b"]. *)
Definition document_duplicate_nodes : v1 :=
  document "ns" [store_inprocess] [node_random_ab; node_random_b].

(** Two request groups of the store ["inprocess"] that both declare ["r1"]. *)
Definition document_duplicate_groups : v1 :=
  {| Version := 1;
     CredentialNamespace := "ns";
     CredentialStores := [Some store_inprocess];
     CredentialRequests :=
       [Some {| Store := "inprocess"; Creds := [Some node_random_ab] |};
        Some {| Store := "inprocess"; Creds := [Some node_r1; Some node_r1] |}] |}.

(** Two stores under the alias ["inprocess"], of different known types. *)
Definition document_duplicate_stores : v1 :=
  document "ns" [store_inprocess; store_ssm_named_inprocess] [node_r1].

(** Two stores under the alias ["inprocess"], the first of unknown type. *)
Definition document_unknown_store_first : v1 :=
  document "ns" [store_unknown_named_inprocess; store_inprocess] [node_r1].

(** Two stores under the alias ["inprocess"] and no namespace. *)
Definition document_duplicate_stores_no_namespace : v1 :=
  document "" [store_inprocess; store_ssm_named_inprocess] [node_r1].

(** A document whose only credential entry is [{list: [{name: a}]}]. *)
Definition document_list_only : v1 :=
  document "ns" [store_inprocess] [node_list_only].

(** A document whose only credential entry is
    [{list: [{type: random, name: a}]}]. *)
Definition document_list_only_typed : v1 :=
  document "ns" [store_inprocess] [node_list_only_typed].

(** A document whose only credential entry is [{}]. *)
Definition document_empty_node : v1 :=
  document "ns" [store_inprocess] [node_empty].

(** One store, a request group for it, and a second group for an alias no
    store has, whose entries would not pass either. *)
Definition document_undefined_store : v1 :=
  {| Version := 1;
     CredentialNamespace := "ns";
     CredentialStores := [Some store_inprocess];
     CredentialRequests :=
       [Some {| Store := "inprocess"; Creds := [Some node_r1] |};
        Some {| Store := "missing"; Creds := [None; Some node_both_populated] |}] |}.

(** [{type: ssm}]: its alias is its type. *)
Definition store_ssm : sidecred.StoreConfig :=
  {| sidecred.Store_Type := sidecred.SSM; sidecred.Store_Name := "";
     sidecred.Store_Config := "" |}.

(** Two stores with a request group each. *)
Definition document_two_stores : v1 :=
  {| Version := 1;
     CredentialNamespace := "ns";
     CredentialStores := [Some store_inprocess; Some store_ssm];
     CredentialRequests :=
       [Some {| Store := "inprocess"; Creds := [Some node_r1] |};
        Some {| Store := "ssm"; Creds := [Some node_random_ab] |}] |}.

(** The same stores and groups, each in the other order. *)
Definition document_two_stores_swapped : v1 :=
  {| Version := 1;
     CredentialNamespace := "ns";
     CredentialStores := [Some store_ssm; Some store_inprocess];
     CredentialRequests :=
       [Some {| Store := "ssm"; Creds := [Some node_random_ab] |};
        Some {| Store := "inprocess"; Creds := [Some node_r1] |}] |}.

(** [{type: random, name: r1, rotation_window: 600, config: {}}]. *)
Definition request_r1_rotating : sidecred.CredentialRequest :=
  {| sidecred.Type_ := sidecred.Randomized; sidecred.Name := "r1";
     sidecred.RotationWindow := Some 600%Z; sidecred.Config := "{}" |}.

(** [{name: a, rotation_window: 60}] as a list entry. *)
Definition entry_a_rotating : sidecred.CredentialRequest :=
  {| sidecred.Type_ := ""; sidecred.Name := "a";
     sidecred.RotationWindow := Some 60%Z; sidecred.Config := "" |}.

(** [document_duplicate_groups] under another version and with rotation
    windows, on a request of its own and on a list entry. *)
Definition document_duplicate_groups_rotating : v1 :=
  {| Version := 7%Z;
     CredentialNamespace := "ns";
     CredentialStores := [Some store_inprocess];
     CredentialRequests :=
       [Some {| Store := "inprocess";
                Creds := [Some {| CredentialRequest := Some inlined_random;
                                  List := [Some entry_a_rotating; Some entry_b] |}] |};
        Some {| Store := "inprocess";
                Creds := [Some {| CredentialRequest := Some request_r1_rotating;
                                  List := [] |};
                          Some node_r1] |}] |}.

(** [{type: bogus, name: r1, config: {}}]: a request of no recognized
    type under the name of [request_r1]. *)
Definition request_bogus_r1 : sidecred.CredentialRequest :=
  {| sidecred.Type_ := "bogus"; sidecred.Name := "r1";
     sidecred.RotationWindow := None; sidecred.Config := "{}" |}.

(** The credential entry that is this request. *)
Definition node_bogus_r1 : credentialRequest :=
  {| CredentialRequest := Some request_bogus_r1; List := [] |}.

(** Two requests named ["r1"] for one store, the later one of no
    recognized type. *)
Definition document_duplicate_unknown_type : v1 :=
  document "ns" [store_inprocess] [node_r1; node_bogus_r1].

(** Two list nodes that both declare ["a"], the later one with a name of
    its own. *)
Definition document_duplicate_both_populated : v1 :=
  document "ns" [store_inprocess] [node_random_ab; node_both_populated].

(** [{type: vault}]: a store of no known type, under an alias of its own. *)
Definition store_vault : sidecred.StoreConfig :=
  {| sidecred.Store_Type := "vault"; sidecred.Store_Name := "";
     sidecred.Store_Config := "" |}.

(** [{type: secretsManager, name: inprocess}]: a third store under the
    alias ["inprocess"]. *)
Definition store_secretsmanager_named_inprocess : sidecred.StoreConfig :=
  {| sidecred.Store_Type := sidecred.SecretsManager;
     sidecred.Store_Name := "inprocess"; sidecred.Store_Config := "" |}.

(** Three stores under the alias ["inprocess"], with a store of unknown
    type between the second and the third. *)
Definition document_duplicate_stores_then_unknown : v1 :=
  document "ns"
    [store_inprocess; store_ssm_named_inprocess; store_vault;
     store_secretsmanager_named_inprocess]
    [node_r1].

(** * Proofs

    ** The loop combinator *)

Lemma bind_Ok_inv {A B : Type} (m : result A) (k : A -> result B) (b : B) :
  bind m k = Ok b -> exists a, m = Ok a /\ k a = Ok b.
Proof. destruct m as [a| |]; simpl; intros H; [eauto | discriminate..]. Qed.

Lemma deref_Ok_inv {A : Type} (p : ptr A) (a : A) : deref p = Ok a -> p = Some a.
Proof. destruct p; simpl; congruence. Qed.

Lemma range_from_app {A St : Type} (body : nat -> A -> St -> result St)
    (xs ys : list A) (i : nat) (s : St) :
  range_from body i (xs ++ ys) s =
  do s' <- range_from body i xs s; range_from body (i + length xs) ys s'.
Proof.
  revert i s; induction xs as [|x xs IH]; intros i s; simpl.
  - by rewrite Nat.add_0_r.
  - destruct (body i x s) as [s'| |]; simpl; [|done..].
    rewrite IH. by replace (S i + length xs) with (i + S (length xs)) by lia.
Qed.

(** A loop whose body ignores the index can start at any index. *)
Lemma range_from_index_irrelevant {A St : Type} (body : A -> St -> result St)
    (xs : list A) (i j : nat) (s : St) :
  range_from (fun _ => body) i xs s = range_from (fun _ => body) j xs s.
Proof.
  revert i j s; induction xs as [|x xs IH]; intros i j s; simpl; [done|].
  destruct (body x s); simpl; [apply IH | done..].
Qed.

(** ** The credential request normalizer *)

Lemma flatten_unfold (c : credentialRequest) :
  credentialRequest_flatten (Some c) =
  if decide (length (List c) = 0) then Ok [CredentialRequest c]
  else range (flatten_body c) (List c) [].
Proof. reflexivity. Qed.

Lemma flatten_loop (c : credentialRequest) (inlined : sidecred.CredentialRequest)
    (rs : list sidecred.CredentialRequest) (i : nat)
    (acc : list (ptr sidecred.CredentialRequest)) :
  CredentialRequest c = Some inlined ->
  range_from (flatten_body c) i (map Some rs) acc =
  Ok (acc ++ map (fun r => Some (resolved inlined r)) rs).
Proof.
  intros Hin. revert i acc; induction rs as [|r rs IH]; intros i acc; simpl.
  - by rewrite app_nil_r.
  - unfold flatten_body at 1. rewrite Hin. simpl.
    rewrite IH, <- app_assoc. reflexivity.
Qed.

Lemma flatten_loop_inv (c : credentialRequest) (l : list (ptr sidecred.CredentialRequest))
    (i : nat) (acc out : list (ptr sidecred.CredentialRequest)) :
  l <> [] ->
  range_from (flatten_body c) i l acc = Ok out ->
  exists inlined rs, CredentialRequest c = Some inlined /\ l = map Some rs.
Proof.
  destruct (CredentialRequest c) as [inlined|] eqn:Hin.
  - intros _ H. exists inlined.
    revert i acc H; induction l as [|r l IH]; intros i acc H.
    + by exists [].
    + simpl in H. unfold flatten_body at 1 in H. rewrite Hin in H.
      destruct r as [r|]; simpl in H; [|discriminate].
      apply IH in H as (rs & _ & ->). by exists (r :: rs).
  - intros Hne H. destruct l as [|r l]; [done|].
    simpl in H. unfold flatten_body at 1 in H. rewrite Hin in H. discriminate.
Qed.

(** A node without a list flattens to its own inlined request. *)
Lemma flatten_singleton (c : credentialRequest) :
  List c = [] -> credentialRequest_flatten (Some c) = Ok [CredentialRequest c].
Proof. intros H. rewrite flatten_unfold, H. reflexivity. Qed.

(** A node with a list and an inlined request flattens to one resolved
    request per entry, in order. *)
Lemma flatten_list (c : credentialRequest) (inlined : sidecred.CredentialRequest)
    (rs : list sidecred.CredentialRequest) :
  CredentialRequest c = Some inlined ->
  List c = map Some rs ->
  rs <> [] ->
  credentialRequest_flatten (Some c) =
  Ok (map (fun r => Some (resolved inlined r)) rs).
Proof.
  intros Hin Hl Hne. rewrite flatten_unfold.
  destruct (decide (length (List c) = 0)) as [Hz|_].
  - rewrite Hl, length_map in Hz. by destruct rs.
  - unfold range. rewrite Hl. by rewrite (flatten_loop c inlined).
Qed.

(** Whenever [flatten] returns, it returns one of these two. *)
Lemma flatten_Ok_inv (p : ptr credentialRequest)
    (out : list (ptr sidecred.CredentialRequest)) :
  credentialRequest_flatten p = Ok out ->
  exists c, p = Some c /\
    ((List c = [] /\ out = [CredentialRequest c]) \/
     (exists inlined rs, rs <> [] /\ CredentialRequest c = Some inlined /\
        List c = map Some rs /\
        out = map (fun r => Some (resolved inlined r)) rs)).
Proof.
  destruct p as [c|]; [|discriminate]. intros H. exists c; split; [done|].
  rewrite flatten_unfold in H.
  destruct (decide (length (List c) = 0)) as [Hz|Hnz].
  - left. split; [by apply length_zero_iff_nil | congruence].
  - right. assert (List c <> []) as Hne by (intros E; by rewrite E in Hnz).
    destruct (flatten_loop_inv _ _ _ _ _ Hne H) as (inlined & rs & Hin & Hl).
    exists inlined, rs. split; [by intros ->; rewrite Hl in Hne|].
    split; [done|]. split; [done|].
    unfold range in H. rewrite Hl, (flatten_loop c inlined) in H by done.
    simpl in H. congruence.
Qed.

Lemma flatten_nonempty (p : ptr credentialRequest)
    (out : list (ptr sidecred.CredentialRequest)) :
  credentialRequest_flatten p = Ok out -> out <> [].
Proof.
  intros H. apply flatten_Ok_inv in H as (c & _ & [[_ ->]|(inl & rs & Hne & _ & _ & ->)]).
  - done.
  - by destruct rs.
Qed.

Lemma validate_unfold (c : credentialRequest) :
  credentialRequest_validate (Some c) =
  if decide (length (List c) = 0) then Ok tt
  else
    do inlined <- deref (CredentialRequest c);
    if decide (sidecred.Name inlined <> "") then Error (NotForLists "name")
    else if decide (0 < String.length (sidecred.Config inlined))
    then Error (NotForLists "config")
    else do _ <- range validate_body (List c) tt; Ok tt.
Proof. reflexivity. Qed.

Lemma length_pos_nonempty (s : string) : 0 < String.length s <-> s <> "".
Proof. destruct s; simpl; split; intros H; try done; lia. Qed.

Lemma validate_loop_ok (rs : list sidecred.CredentialRequest) (i : nat) :
  Forall (fun r => sidecred.Type_ r = "") rs ->
  range_from validate_body i (map Some rs) tt = Ok tt.
Proof.
  intros H. revert i; induction H as [|r rs Hr _ IH]; intros i; simpl; [done|].
  unfold validate_body at 1. simpl. rewrite Hr. simpl. apply IH.
Qed.

Lemma validate_loop_Ok_inv (l : list (ptr sidecred.CredentialRequest)) (i : nat) (u : unit) :
  range_from validate_body i l tt = Ok u ->
  exists rs, l = map Some rs /\ Forall (fun r => sidecred.Type_ r = "") rs.
Proof.
  revert i; induction l as [|r l IH]; intros i H.
  - by exists [].
  - simpl in H. unfold validate_body at 1 in H.
    destruct r as [r|]; simpl in H; [|discriminate].
    destruct (decide (sidecred.Type_ r <> "")) as [|Ht]; simpl in H; [discriminate|].
    apply IH in H as (rs & -> & Hrs). exists (r :: rs). split; [done|].
    constructor; [|done]. by destruct (decide (sidecred.Type_ r = "")).
Qed.

(** A node without a list passes shorthand validation. *)
Lemma validate_no_list (c : credentialRequest) :
  List c = [] -> credentialRequest_validate (Some c) = Ok tt.
Proof. intros H. by rewrite validate_unfold, H. Qed.

(** A node with a list and a name of its own is rejected. *)
Lemma validate_list_name (c : credentialRequest) (inlined : sidecred.CredentialRequest) :
  List c <> [] ->
  CredentialRequest c = Some inlined ->
  sidecred.Name inlined <> "" ->
  credentialRequest_validate (Some c) = Error (NotForLists "name").
Proof.
  intros Hl Hin Hn. rewrite validate_unfold, Hin.
  destruct (decide (length (List c) = 0)) as [Hz|_].
  - by apply length_zero_iff_nil in Hz.
  - simpl. by destruct (decide (sidecred.Name inlined <> "")).
Qed.

(** A node with a list, no name and a configuration of its own is rejected. *)
Lemma validate_list_config (c : credentialRequest) (inlined : sidecred.CredentialRequest) :
  List c <> [] ->
  CredentialRequest c = Some inlined ->
  sidecred.Name inlined = "" ->
  sidecred.Config inlined <> "" ->
  credentialRequest_validate (Some c) = Error (NotForLists "config").
Proof.
  intros Hl Hin Hn Hc. rewrite validate_unfold, Hin.
  destruct (decide (length (List c) = 0)) as [Hz|_].
  - by apply length_zero_iff_nil in Hz.
  - simpl. destruct (decide (sidecred.Name inlined <> "")); [done|].
    destruct (decide (0 < String.length (sidecred.Config inlined))) as [|Hc']; [done|].
    by apply length_pos_nonempty in Hc.
Qed.

(** A node with a list, no name and no configuration of its own is rejected
    at the first entry that declares a type. *)
Lemma validate_list_entry_type (c : credentialRequest)
    (inlined r : sidecred.CredentialRequest)
    (before : list sidecred.CredentialRequest)
    (after : list (ptr sidecred.CredentialRequest)) :
  CredentialRequest c = Some inlined ->
  sidecred.Name inlined = "" ->
  sidecred.Config inlined = "" ->
  List c = map Some before ++ Some r :: after ->
  Forall (fun r => sidecred.Type_ r = "") before ->
  sidecred.Type_ r <> "" ->
  credentialRequest_validate (Some c) = Error (ListEntryType (length before)).
Proof.
  intros Hin Hn Hc Hl Hb Hr. rewrite validate_unfold, Hin, Hl.
  destruct (decide _) as [Hz|_].
  { rewrite length_app in Hz. simpl in Hz. lia. }
  simpl. rewrite Hn, Hc. simpl.
  unfold range. rewrite range_from_app, validate_loop_ok by done. simpl.
  unfold validate_body at 1. simpl.
  rewrite length_map. by destruct (decide (sidecred.Type_ r <> "")).
Qed.

(** A pure list passes shorthand validation. *)
Lemma validate_list_ok (c : credentialRequest) (inlined : sidecred.CredentialRequest)
    (rs : list sidecred.CredentialRequest) :
  CredentialRequest c = Some inlined ->
  sidecred.Name inlined = "" ->
  sidecred.Config inlined = "" ->
  List c = map Some rs ->
  Forall (fun r => sidecred.Type_ r = "") rs ->
  credentialRequest_validate (Some c) = Ok tt.
Proof.
  intros Hin Hn Hc Hl Hrs. rewrite validate_unfold, Hin, Hl.
  destruct (decide _); [done|]. simpl. rewrite Hn, Hc. simpl.
  unfold range. by rewrite validate_loop_ok.
Qed.

(** Whenever shorthand validation passes, the node is a singleton or a pure
    list. *)
Lemma validate_Ok_inv (p : ptr credentialRequest) (u : unit) :
  credentialRequest_validate p = Ok u ->
  exists c, p = Some c /\
    (List c = [] \/
     exists inlined rs, CredentialRequest c = Some inlined /\
       sidecred.Name inlined = "" /\ sidecred.Config inlined = "" /\
       List c = map Some rs /\ Forall (fun r => sidecred.Type_ r = "") rs).
Proof.
  destruct p as [c|]; [|discriminate]. intros H. exists c; split; [done|].
  rewrite validate_unfold in H.
  destruct (decide (length (List c) = 0)) as [Hz|_].
  { left. by apply length_zero_iff_nil. }
  right. destruct (CredentialRequest c) as [inlined|]; [|discriminate].
  simpl in H. exists inlined.
  destruct (decide (sidecred.Name inlined <> "")) as [|Hn]; [discriminate|].
  destruct (decide (0 < String.length (sidecred.Config inlined))) as [|Hc]; [discriminate|].
  apply bind_Ok_inv in H as (u' & H & _).
  apply validate_loop_Ok_inv in H as (rs & Hl & Hrs).
  exists rs. split; [done|]. split.
  { by destruct (decide (sidecred.Name inlined = "")). }
  split; [|done].
  destruct (decide (sidecred.Config inlined = "")) as [|Hc']; [done|].
  by apply length_pos_nonempty in Hc'.
Qed.

(** ** The structural validator *)

Section Validator.
Context {providers : Providers}.

Lemma known_store_type_spec (s : sidecred.StoreConfig) :
  known_store_type (sidecred.Store_Type s) = true <-> known_store s.
Proof.
  unfold known_store_type, known_store.
  rewrite !orb_true_iff, !bool_decide_eq_true, !elem_of_cons, elem_of_nil.
  tauto.
Qed.

(** The loop over the stores, when every store passes. *)
Lemma validate_stores_ok (ss : list sidecred.StoreConfig) (i : nat) (seen : gset string) :
  Forall known_store ss ->
  NoDup (aliases ss) ->
  (forall a, a ∈ aliases ss -> a ∉ seen) ->
  range_from validate_store i (map Some ss) seen = Ok (list_to_set (aliases ss) ∪ seen).
Proof.
  intros Hk. revert i seen; induction Hk as [|s ss Hs _ IH]; intros i seen Hnd Hfresh.
  - simpl. f_equal. set_solver.
  - simpl in *. apply NoDup_cons in Hnd as [Hs' Hnd].
    unfold validate_store at 1. simpl.
    apply known_store_type_spec in Hs. rewrite Hs.
    destruct (decide (sidecred.Alias s ∈ seen)) as [Hin|_].
    { exfalso. apply (Hfresh (sidecred.Alias s)); [left | done]. }
    simpl. rewrite IH; [f_equal; set_solver | done |].
    intros a Ha. apply not_elem_of_union. split.
    + apply not_elem_of_singleton. intros ->. done.
    + apply Hfresh. by right.
Qed.

(** The loop over the stores returns only when every store passes. *)
Lemma validate_stores_Ok_inv (l : list (ptr sidecred.StoreConfig)) (i : nat)
    (seen seen' : gset string) :
  range_from validate_store i l seen = Ok seen' ->
  exists ss, l = map Some ss /\ Forall known_store ss /\ NoDup (aliases ss) /\
    (forall a, a ∈ aliases ss -> a ∉ seen) /\
    seen' = list_to_set (aliases ss) ∪ seen.
Proof.
  revert i seen; induction l as [|s l IH]; intros i seen H.
  - exists []. simpl in *. repeat split; [constructor | constructor | set_solver |].
    injection H as <-. set_solver.
  - simpl in H. apply bind_Ok_inv in H as (seen1 & Hs & H).
    unfold validate_store in Hs. destruct s as [s|]; [|discriminate]. simpl in Hs.
    destruct (known_store_type _) eqn:Hk; [|discriminate].
    destruct (decide (sidecred.Alias s ∈ seen)) as [|Hfresh]; [discriminate|].
    injection Hs as <-.
    apply IH in H as (ss & -> & Hks & Hnd & Hfr & ->).
    exists (s :: ss). split; [done|]. split.
    { constructor; [by apply known_store_type_spec | done]. }
    split.
    { simpl. apply NoDup_cons. split; [|done].
      intros Hin. apply Hfr in Hin. set_solver. }
    split.
    { simpl. intros a [->|Ha]%elem_of_cons; [done|]. apply Hfr in Ha. set_solver. }
    simpl. set_solver.
Qed.

(** The loop over the stores stops at the first store whose alias an
    earlier store has. *)
Lemma validate_stores_duplicate (before : list sidecred.StoreConfig)
    (s : sidecred.StoreConfig) (after : list (ptr sidecred.StoreConfig)) :
  Forall known_store before ->
  NoDup (aliases before) ->
  known_store s ->
  sidecred.Alias s ∈ aliases before ->
  range validate_store (map Some before ++ Some s :: after) ∅ =
  Error (StoreDuplicate (length before) (sidecred.Alias s)).
Proof.
  intros Hk Hnd Hs Hin. unfold range.
  rewrite range_from_app, validate_stores_ok by (done || set_solver).
  simpl. unfold validate_store at 1. simpl.
  apply known_store_type_spec in Hs. rewrite Hs, length_map.
  destruct (decide _) as [|Hn]; [done|]. exfalso. apply Hn. set_solver.
Qed.

(** When some store has the alias of an earlier one, the loop over the
    stores fails at the first store that is of unknown type or has the alias
    of a store before it, with the error of that store. *)
Lemma validate_stores_first_failure (l : list sidecred.StoreConfig)
    (rest : list (ptr sidecred.StoreConfig)) (i : nat) (seen : gset string)
    (k : nat) (s : sidecred.StoreConfig) :
  l !! k = Some s ->
  sidecred.Alias s ∈ seen \/ sidecred.Alias s ∈ aliases (take k l) ->
  exists j s', j <= k /\ l !! j = Some s' /\
    Forall known_store (take j l) /\ NoDup (aliases (take j l)) /\
    (forall a, a ∈ aliases (take j l) -> a ∉ seen) /\
    ((~ known_store s' /\
      range_from validate_store i (map Some l ++ rest) seen =
      Error (StoreUnknownType (i + j) (sidecred.Store_Type s'))) \/
     (known_store s' /\
      (sidecred.Alias s' ∈ seen \/ sidecred.Alias s' ∈ aliases (take j l)) /\
      range_from validate_store i (map Some l ++ rest) seen =
      Error (StoreDuplicate (i + j) (sidecred.Alias s')))).
Proof.
  revert i seen k. induction l as [|x l IH]; intros i seen k Hk Hin; [done|].
  destruct (known_store_type (sidecred.Store_Type x)) eqn:Hx.
  2:{ exists 0, x. split; [lia|]. split; [done|]. simpl.
      split; [constructor|]. split; [constructor|].
      split; [by intros a Ha%elem_of_nil|]. left. split.
      - rewrite <- known_store_type_spec, Hx. discriminate.
      - unfold validate_store at 1. simpl. by rewrite Hx, Nat.add_0_r. }
  destruct (decide (sidecred.Alias x ∈ seen)) as [Hseen|Hfresh].
  { exists 0, x. split; [lia|]. split; [done|]. simpl.
    split; [constructor|]. split; [constructor|].
    split; [by intros a Ha%elem_of_nil|]. right.
    split; [by apply known_store_type_spec|]. split; [by left|].
    unfold validate_store at 1. simpl. rewrite Hx, Nat.add_0_r.
    by destruct (decide _). }
  destruct k as [|k].
  { simpl in Hk. injection Hk as ->. simpl in Hin.
    destruct Hin as [Hin|Hin%elem_of_nil]; done. }
  simpl in Hk, Hin.
  destruct (IH (S i) ({[ sidecred.Alias x ]} ∪ seen) k Hk)
    as (j & s' & Hj & Hl & Hkn & Hnd & Hfr & Hres).
  { destruct Hin as [Hin|[->|Hin]%elem_of_cons]; [left|left|by right]; set_solver. }
  exists (S j), s'. split; [lia|]. split; [done|]. simpl.
  split. { constructor; [by apply known_store_type_spec|done]. }
  split. { apply NoDup_cons. split; [|done]. intros Ha. apply Hfr in Ha. set_solver. }
  split. { intros a [->|Ha]%elem_of_cons; [done|]. apply Hfr in Ha. set_solver. }
  unfold validate_store at 1 3. simpl. rewrite Hx.
  destruct (decide _); [done|]. simpl.
  replace (i + S j) with (S i + j) by lia.
  destruct Hres as [[Hu Hr]|(Hkn' & Hin' & Hr)]; [by left|right].
  split; [done|]. split; [|done].
  destruct Hin' as [[->%elem_of_singleton|Hin']%elem_of_union|Hin'].
  - right. by left.
  - by left.
  - right. by right.
Qed.

Lemma validate_flattened_ok (i ii : nat) (store : string)
    (r : sidecred.CredentialRequest) (seen : gset (string * string)) :
  provider_ok r ->
  key store r ∉ seen ->
  validate_flattened i ii store (Some r) seen = Ok ({[ key store r ]} ∪ seen).
Proof.
  intros (c & Hp & Hv) Hfresh. unfold validate_flattened. simpl.
  rewrite Hp, Hv. fold (key store r). by destruct (decide _).
Qed.

Lemma validate_flattened_duplicate (i ii : nat) (store : string)
    (r : sidecred.CredentialRequest) (seen : gset (string * string)) :
  provider_ok r ->
  key store r ∈ seen ->
  validate_flattened i ii store (Some r) seen =
  Error (CredsDuplicated i ii store (sidecred.Name r)).
Proof.
  intros (c & Hp & Hv) Hin. unfold validate_flattened. simpl.
  rewrite Hp, Hv. fold (key store r). by destruct (decide _).
Qed.

Lemma validate_flattened_Ok_inv (i ii : nat) (store : string)
    (p : ptr sidecred.CredentialRequest) (seen seen' : gset (string * string)) :
  validate_flattened i ii store p seen = Ok seen' ->
  exists r, p = Some r /\ provider_ok r /\ (key store r ∉ seen) /\
    seen' = {[ key store r ]} ∪ seen.
Proof.
  unfold validate_flattened. destruct p as [r|]; [|discriminate]. simpl.
  destruct (parseProviderConfig _ _) as [c| |] eqn:Hp; [|discriminate..].
  destruct (sidecred.Validate_value c) eqn:Hv; [discriminate|].
  fold (key store r). destruct (decide _) as [|Hfresh]; [discriminate|].
  intros [= <-]. exists r. repeat split; [|done]. by exists c.
Qed.

Lemma flattened_loop_ok (i ii : nat) (store : string)
    (rs : list sidecred.CredentialRequest) (j : nat) (seen : gset (string * string)) :
  Forall provider_ok rs ->
  NoDup (keys store rs) ->
  (forall k, k ∈ keys store rs -> k ∉ seen) ->
  range_from (flattened_loop i ii store) j (map Some rs) seen =
  Ok (list_to_set (keys store rs) ∪ seen).
Proof.
  intros Hp. revert j seen; induction Hp as [|r rs Hr _ IH]; intros j seen Hnd Hfresh.
  - simpl. f_equal. set_solver.
  - simpl in *. apply NoDup_cons in Hnd as [Hr' Hnd].
    unfold flattened_loop at 1. rewrite validate_flattened_ok; [|done|].
    2:{ apply Hfresh. by left. }
    simpl. rewrite IH; [f_equal; set_solver | done |].
    intros k Hk. apply not_elem_of_union. split.
    + apply not_elem_of_singleton. by intros ->.
    + apply Hfresh. by right.
Qed.

Lemma flattened_loop_Ok_inv (i ii : nat) (store : string)
    (l : list (ptr sidecred.CredentialRequest)) (j : nat)
    (seen seen' : gset (string * string)) :
  range_from (flattened_loop i ii store) j l seen = Ok seen' ->
  exists rs, l = map Some rs /\ Forall provider_ok rs /\ NoDup (keys store rs) /\
    (forall k, k ∈ keys store rs -> k ∉ seen) /\
    seen' = list_to_set (keys store rs) ∪ seen.
Proof.
  revert j seen; induction l as [|p l IH]; intros j seen H.
  - exists []. simpl in *. injection H as <-.
    repeat split; [constructor | constructor | set_solver | set_solver].
  - simpl in H. apply bind_Ok_inv in H as (seen1 & Hp & H).
    apply validate_flattened_Ok_inv in Hp as (r & -> & Hr & Hfresh & ->).
    apply IH in H as (rs & -> & Hrs & Hnd & Hfr & ->).
    exists (r :: rs). split; [done|]. split; [by constructor|]. split.
    { simpl. apply NoDup_cons. split; [|done].
      intros Hin. apply Hfr in Hin. set_solver. }
    split.
    { simpl. intros k [->|Hk]%elem_of_cons; [done|]. apply Hfr in Hk. set_solver. }
    simpl. set_solver.
Qed.

Lemma flattened_loop_duplicate (i ii : nat) (store : string)
    (before : list sidecred.CredentialRequest) (r : sidecred.CredentialRequest)
    (after : list (ptr sidecred.CredentialRequest)) (seen : gset (string * string)) :
  Forall provider_ok before ->
  NoDup (keys store before) ->
  (forall k, k ∈ keys store before -> k ∉ seen) ->
  provider_ok r ->
  key store r ∈ keys store before \/ key store r ∈ seen ->
  range (flattened_loop i ii store) (map Some before ++ Some r :: after) seen =
  Error (CredsDuplicated i ii store (sidecred.Name r)).
Proof.
  intros Hb Hnd Hfresh Hr Hin. unfold range.
  rewrite range_from_app, flattened_loop_ok by done. simpl.
  unfold flattened_loop at 1. rewrite validate_flattened_duplicate; [done..|].
  set_solver.
Qed.

Lemma omap_id_Some {A : Type} (l : list A) : omap id (map Some l) = l.
Proof. induction l as [|a l IH]; [done|]. simpl. f_equal. exact IH. Qed.

Lemma node_flat_eq (n : ptr credentialRequest) (rs : list sidecred.CredentialRequest) :
  credentialRequest_flatten n = Ok (map Some rs) -> node_flat n = rs.
Proof. intros H. unfold node_flat. by rewrite H, omap_id_Some. Qed.

Lemma validate_cred_unfold (i : nat) (store : string) (ii : nat)
    (n : ptr credentialRequest) (seen : gset (string * string)) :
  validate_cred i store ii n seen =
  match credentialRequest_validate n with
  | Panic => Panic
  | Error err => Error (CredsInvalid i ii err)
  | Ok _ => do flat <- credentialRequest_flatten n;
            range (flattened_loop i ii store) flat seen
  end.
Proof. reflexivity. Qed.

Lemma validate_cred_ok (i : nat) (store : string) (ii : nat)
    (n : ptr credentialRequest) (seen : gset (string * string)) :
  node_passes n ->
  NoDup (keys store (node_flat n)) ->
  (forall k, k ∈ keys store (node_flat n) -> k ∉ seen) ->
  validate_cred i store ii n seen = Ok (list_to_set (keys store (node_flat n)) ∪ seen).
Proof.
  intros (Hv & Hf & Hp) Hnd Hfresh.
  rewrite validate_cred_unfold, Hv, Hf. simpl.
  by apply flattened_loop_ok.
Qed.

Lemma validate_cred_Ok_inv (i : nat) (store : string) (ii : nat)
    (n : ptr credentialRequest) (seen seen' : gset (string * string)) :
  validate_cred i store ii n seen = Ok seen' ->
  node_passes n /\ NoDup (keys store (node_flat n)) /\
  (forall k, k ∈ keys store (node_flat n) -> k ∉ seen) /\
  seen' = list_to_set (keys store (node_flat n)) ∪ seen.
Proof.
  rewrite validate_cred_unfold.
  destruct (credentialRequest_validate n) as [[]| |] eqn:Hv; [|discriminate..].
  intros (flat & Hf & H)%bind_Ok_inv.
  apply flattened_loop_Ok_inv in H as (rs & -> & Hp & Hnd & Hfresh & ->).
  rewrite (node_flat_eq _ _ Hf). unfold node_passes.
  by rewrite (node_flat_eq _ _ Hf).
Qed.

Lemma validate_cred_duplicate (i : nat) (store : string) (ii : nat)
    (n : ptr credentialRequest)
    (before : list sidecred.CredentialRequest) (r : sidecred.CredentialRequest)
    (after : list (ptr sidecred.CredentialRequest)) (seen : gset (string * string)) :
  credentialRequest_validate n = Ok tt ->
  credentialRequest_flatten n = Ok (map Some before ++ Some r :: after) ->
  Forall provider_ok before ->
  NoDup (keys store before) ->
  (forall k, k ∈ keys store before -> k ∉ seen) ->
  provider_ok r ->
  key store r ∈ keys store before \/ key store r ∈ seen ->
  validate_cred i store ii n seen = Error (CredsDuplicated i ii store (sidecred.Name r)).
Proof.
  intros Hv Hf Hb Hnd Hfresh Hr Hin.
  rewrite validate_cred_unfold, Hv, Hf. simpl.
  by apply flattened_loop_duplicate.
Qed.

Lemma keys_app (store : string) (l k : list sidecred.CredentialRequest) :
  keys store (l ++ k) = keys store l ++ keys store k.
Proof. apply map_app. Qed.

Lemma creds_loop_ok (i : nat) (store : string) (ns : list (ptr credentialRequest))
    (ii : nat) (seen : gset (string * string)) :
  Forall node_passes ns ->
  NoDup (keys store (creds_flat ns)) ->
  (forall k, k ∈ keys store (creds_flat ns) -> k ∉ seen) ->
  range_from (validate_cred i store) ii ns seen =
  Ok (list_to_set (keys store (creds_flat ns)) ∪ seen).
Proof.
  intros Hp. revert ii seen; induction Hp as [|n ns Hn _ IH]; intros ii seen Hnd Hfresh.
  - simpl. f_equal. set_solver.
  - simpl in *. unfold creds_flat in *. simpl in *. rewrite keys_app in *.
    apply NoDup_app in Hnd as (Hnd1 & Hdisj & Hnd2).
    rewrite validate_cred_ok; [|done|done|].
    2:{ intros k Hk. apply Hfresh. set_solver. }
    simpl. rewrite IH; [|done|].
    + f_equal. rewrite list_to_set_app_L. set_solver.
    + intros k Hk. apply not_elem_of_union. split.
      * rewrite elem_of_list_to_set. intros Hk'. by apply (Hdisj k).
      * apply Hfresh. set_solver.
Qed.

Lemma creds_loop_Ok_inv (i : nat) (store : string) (ns : list (ptr credentialRequest))
    (ii : nat) (seen seen' : gset (string * string)) :
  range_from (validate_cred i store) ii ns seen = Ok seen' ->
  Forall node_passes ns /\ NoDup (keys store (creds_flat ns)) /\
  (forall k, k ∈ keys store (creds_flat ns) -> k ∉ seen) /\
  seen' = list_to_set (keys store (creds_flat ns)) ∪ seen.
Proof.
  revert ii seen; induction ns as [|n ns IH]; intros ii seen H.
  - simpl in *. injection H as <-.
    repeat split; [constructor | constructor | set_solver | set_solver].
  - simpl in H. apply bind_Ok_inv in H as (seen1 & Hn & H).
    apply validate_cred_Ok_inv in Hn as (Hn & Hnd1 & Hfr1 & ->).
    apply IH in H as (Hns & Hnd2 & Hfr2 & ->).
    unfold creds_flat in *. simpl. rewrite keys_app.
    split; [by constructor|]. split.
    { apply NoDup_app. split; [done|]. split; [|done].
      intros k Hk1 Hk2. apply Hfr2 in Hk2. set_solver. }
    split.
    { intros k [Hk|Hk]%elem_of_app; [by apply Hfr1|].
      apply Hfr2 in Hk. set_solver. }
    rewrite list_to_set_app_L. set_solver.
Qed.

Lemma creds_loop_duplicate (i : nat) (store : string)
    (ns_before : list (ptr credentialRequest)) (n : ptr credentialRequest)
    (ns_after : list (ptr credentialRequest))
    (before : list sidecred.CredentialRequest) (r : sidecred.CredentialRequest)
    (after : list (ptr sidecred.CredentialRequest)) (seen : gset (string * string)) :
  Forall node_passes ns_before ->
  credentialRequest_validate n = Ok tt ->
  credentialRequest_flatten n = Ok (map Some before ++ Some r :: after) ->
  Forall provider_ok before ->
  provider_ok r ->
  NoDup (keys store (creds_flat ns_before ++ before)) ->
  (forall k, k ∈ keys store (creds_flat ns_before ++ before) -> k ∉ seen) ->
  key store r ∈ keys store (creds_flat ns_before ++ before) \/ key store r ∈ seen ->
  range (validate_cred i store) (ns_before ++ n :: ns_after) seen =
  Error (CredsDuplicated i (length ns_before) store (sidecred.Name r)).
Proof.
  intros Hns Hv Hf Hb Hr Hnd Hfresh Hin. unfold range.
  rewrite keys_app in *. apply NoDup_app in Hnd as (Hnd1 & Hdisj & Hnd2).
  rewrite range_from_app, creds_loop_ok; [|done|done|].
  2:{ intros k Hk. apply Hfresh. set_solver. }
  simpl.
  rewrite (validate_cred_duplicate _ _ _ _ before r after); [done..| | |done|].
  - done.
  - intros k Hk. apply not_elem_of_union. split.
    + rewrite elem_of_list_to_set. intros Hk'. by apply (Hdisj k).
    + apply Hfresh. set_solver.
  - rewrite elem_of_union, elem_of_list_to_set.
    destruct Hin as [[H|H]%elem_of_app|H]; tauto.
Qed.

Section Requests_loop.
Variables (stores : gset string) (known : list string).
Hypothesis stores_known : forall a, a ∈ stores <-> a ∈ known.

Lemma requests_loop_ok (gs : list (ptr requestV1)) (i : nat)
    (seen : gset (string * string)) :
  Forall (group_passes known) gs ->
  NoDup (doc_keys gs) ->
  (forall k, k ∈ doc_keys gs -> k ∉ seen) ->
  range_from (validate_request stores) i gs seen = Ok (list_to_set (doc_keys gs) ∪ seen).
Proof.
  intros Hp. revert i seen; induction Hp as [|g gs Hg _ IH]; intros i seen Hnd Hfresh.
  - simpl. f_equal. set_solver.
  - destruct Hg as (g' & -> & Hstore & Hns).
    unfold doc_keys in *. simpl in *.
    apply NoDup_app in Hnd as (Hnd1 & Hdisj & Hnd2).
    unfold validate_request at 1. simpl.
    destruct (decide (Store g' ∈ stores)) as [_|Hn].
    2:{ exfalso. apply Hn. by apply stores_known. }
    unfold range. rewrite creds_loop_ok; [|done|done|].
    2:{ intros k Hk. apply Hfresh. set_solver. }
    simpl. rewrite IH; [|done|].
    + f_equal. rewrite list_to_set_app_L. set_solver.
    + intros k Hk. apply not_elem_of_union. split.
      * rewrite elem_of_list_to_set. intros Hk'. by apply (Hdisj k).
      * apply Hfresh. set_solver.
Qed.

Lemma requests_loop_Ok_inv (gs : list (ptr requestV1)) (i : nat)
    (seen seen' : gset (string * string)) :
  range_from (validate_request stores) i gs seen = Ok seen' ->
  Forall (group_passes known) gs /\ NoDup (doc_keys gs) /\
  (forall k, k ∈ doc_keys gs -> k ∉ seen) /\
  seen' = list_to_set (doc_keys gs) ∪ seen.
Proof.
  revert i seen; induction gs as [|g gs IH]; intros i seen H.
  - simpl in *. injection H as <-.
    repeat split; [constructor | constructor | set_solver | set_solver].
  - simpl in H. apply bind_Ok_inv in H as (seen1 & Hg & H).
    unfold validate_request in Hg. destruct g as [g|]; [|discriminate]. simpl in Hg.
    destruct (decide (Store g ∈ stores)) as [Hstore|]; [|discriminate].
    apply creds_loop_Ok_inv in Hg as (Hns & Hnd1 & Hfr1 & ->).
    apply IH in H as (Hgs & Hnd2 & Hfr2 & ->).
    unfold doc_keys in *. simpl.
    split.
    { constructor; [|done]. exists g. split; [done|]. split; [|done].
      by apply stores_known. }
    split.
    { apply NoDup_app. split; [done|]. split; [|done].
      intros k Hk1 Hk2. apply Hfr2 in Hk2. set_solver. }
    split.
    { intros k [Hk|Hk]%elem_of_app; [by apply Hfr1|].
      apply Hfr2 in Hk. set_solver. }
    rewrite list_to_set_app_L. set_solver.
Qed.

Lemma requests_loop_duplicate
    (gs_before : list (ptr requestV1)) (g : requestV1) (gs_after : list (ptr requestV1))
    (ns_before : list (ptr credentialRequest)) (n : ptr credentialRequest)
    (ns_after : list (ptr credentialRequest))
    (before : list sidecred.CredentialRequest) (r : sidecred.CredentialRequest)
    (after : list (ptr sidecred.CredentialRequest)) :
  Forall (group_passes known) gs_before ->
  Store g ∈ known ->
  Creds g = ns_before ++ n :: ns_after ->
  Forall node_passes ns_before ->
  credentialRequest_validate n = Ok tt ->
  credentialRequest_flatten n = Ok (map Some before ++ Some r :: after) ->
  Forall provider_ok before ->
  provider_ok r ->
  NoDup (doc_keys gs_before ++ keys (Store g) (creds_flat ns_before ++ before)) ->
  key (Store g) r ∈ doc_keys gs_before ++ keys (Store g) (creds_flat ns_before ++ before) ->
  range (validate_request stores) (gs_before ++ Some g :: gs_after) ∅ =
  Error (CredsDuplicated (length gs_before) (length ns_before) (Store g) (sidecred.Name r)).
Proof.
  intros Hgs Hstore Hcreds Hns Hv Hf Hb Hr Hnd Hin. unfold range.
  apply NoDup_app in Hnd as (Hnd1 & Hdisj & Hnd2).
  rewrite range_from_app, requests_loop_ok; [|done|done|set_solver].
  simpl. unfold validate_request at 1. simpl.
  destruct (decide (Store g ∈ stores)) as [_|Hn].
  2:{ exfalso. apply Hn. by apply stores_known. }
  rewrite Hcreds.
  rewrite (creds_loop_duplicate _ _ _ _ _ before r after); [done..| | ].
  - intros k Hk. apply not_elem_of_union. split; [|set_solver].
    rewrite elem_of_list_to_set. intros Hk'. by apply (Hdisj k).
  - rewrite elem_of_union, elem_of_list_to_set.
    apply elem_of_app in Hin. tauto.
Qed.

End Requests_loop.

End Validator.

(** ** The accessors *)

Lemma credentials_loop (ns : list (ptr credentialRequest)) (i : nat)
    (acc : list (ptr sidecred.CredentialRequest)) :
  Forall node_returns ns ->
  range_from credentials_body i ns acc = Ok (acc ++ flat_map node_out ns).
Proof.
  intros H. revert i acc; induction H as [|n ns [l Hl] _ IH]; intros i acc; simpl.
  - by rewrite app_nil_r.
  - unfold credentials_body at 1. rewrite Hl. simpl.
    rewrite IH, <- app_assoc. unfold node_out at 2. by rewrite Hl.
Qed.

Lemma credentials_loop_Ok_inv (ns : list (ptr credentialRequest)) (i : nat)
    (acc out : list (ptr sidecred.CredentialRequest)) :
  range_from credentials_body i ns acc = Ok out -> Forall node_returns ns.
Proof.
  revert i acc; induction ns as [|n ns IH]; intros i acc H; [constructor|].
  simpl in H. apply bind_Ok_inv in H as (acc' & Hn & H).
  unfold credentials_body in Hn. apply bind_Ok_inv in Hn as (l & Hl & _).
  constructor; [by exists l | by eapply IH].
Qed.

Lemma credentialsMap_unfold (g : requestV1) :
  requestV1_credentialsMap (Some g) =
  do credentials <- range credentials_body (Creds g) [];
  Ok (Some {| sidecred.Store := Store g; sidecred.Credentials := credentials |}).
Proof. reflexivity. Qed.

(** [credentialsMap] keeps the group's store and concatenates, in order,
    what [flatten] returns for each credential entry. *)
Lemma credentialsMap_spec (g : requestV1) :
  Forall node_returns (Creds g) ->
  requestV1_credentialsMap (Some g) = Ok (credentials_map g).
Proof.
  intros H. rewrite credentialsMap_unfold. unfold range.
  by rewrite credentials_loop.
Qed.

Lemma credentialsMap_Ok_inv (p : ptr requestV1) (m : ptr sidecred.CredentialsMap) :
  requestV1_credentialsMap p = Ok m ->
  exists g, p = Some g /\ Forall node_returns (Creds g) /\ m = credentials_map g.
Proof.
  destruct p as [g|]; [|discriminate]. intros H. exists g. split; [done|].
  assert (Forall node_returns (Creds g)) as Hr.
  { rewrite credentialsMap_unfold in H. apply bind_Ok_inv in H as (l & H & _).
    by eapply credentials_loop_Ok_inv. }
  split; [done|]. rewrite credentialsMap_spec in H by done. congruence.
Qed.

Lemma accessor_loop (gs : list requestV1) (i : nat)
    (acc : list (ptr sidecred.CredentialsMap)) :
  Forall (fun g => Forall node_returns (Creds g)) gs ->
  range_from requests_body i (map Some gs) acc = Ok (acc ++ map credentials_map gs).
Proof.
  intros H. revert i acc; induction H as [|g gs Hg _ IH]; intros i acc; simpl.
  - by rewrite app_nil_r.
  - unfold requests_body at 1. rewrite credentialsMap_spec by done. simpl.
    by rewrite IH, <- app_assoc.
Qed.

Lemma accessor_loop_Ok_inv (l : list (ptr requestV1)) (i : nat)
    (acc out : list (ptr sidecred.CredentialsMap)) :
  range_from requests_body i l acc = Ok out ->
  exists gs, l = map Some gs /\ Forall (fun g => Forall node_returns (Creds g)) gs.
Proof.
  revert i acc; induction l as [|p l IH]; intros i acc H.
  - by exists [].
  - simpl in H. apply bind_Ok_inv in H as (acc' & Hp & H).
    unfold requests_body in Hp. apply bind_Ok_inv in Hp as (m & Hm & _).
    apply credentialsMap_Ok_inv in Hm as (g & -> & Hg & _).
    apply IH in H as (gs & -> & Hgs). exists (g :: gs). split; [done|].
    by constructor.
Qed.

(** [Requests] returns one credentials map per request group, in order. *)
Lemma Requests_spec (c : v1) (gs : list requestV1) :
  CredentialRequests c = map Some gs ->
  Forall (fun g => Forall node_returns (Creds g)) gs ->
  v1_Requests (Some c) = Ok (map credentials_map gs).
Proof.
  intros Hc Hgs. change (v1_Requests (Some c))
    with (range requests_body (CredentialRequests c) []).
  rewrite Hc. unfold range. by rewrite accessor_loop.
Qed.

(** [Requests] returns only for a configuration whose groups are all
    present and whose credential entries all flatten. *)
Lemma Requests_Ok_inv (c : v1) (out : list (ptr sidecred.CredentialsMap)) :
  v1_Requests (Some c) = Ok out ->
  exists gs, CredentialRequests c = map Some gs /\
    Forall (fun g => Forall node_returns (Creds g)) gs /\
    out = map credentials_map gs.
Proof.
  intros H. pose proof H as H'.
  change (v1_Requests (Some c))
    with (range requests_body (CredentialRequests c) []) in H'.
  apply accessor_loop_Ok_inv in H' as (gs & Hc & Hgs).
  exists gs. split; [done|]. split; [done|].
  rewrite (Requests_spec c gs) in H by done. congruence.
Qed.

(** When [flatten] returns: the node is present and, if it has a list, its
    inlined request and every list entry are present. *)
Lemma node_returns_iff (n : ptr credentialRequest) :
  node_returns n <->
  exists c, n = Some c /\
    (List c = [] \/
     exists inlined rs, CredentialRequest c = Some inlined /\ List c = map Some rs).
Proof.
  split.
  - intros [l (c & -> & [[Hl _]|(inlined & rs & _ & Hin & Hl & _)])%flatten_Ok_inv];
      exists c; (split; [done|]); [by left | right; by exists inlined, rs].
  - intros (c & -> & [Hl|(inlined & rs & Hin & Hl)]).
    + eexists. by apply flatten_singleton.
    + destruct rs as [|r rs].
      * eexists. by apply flatten_singleton.
      * eexists. by apply (flatten_list c inlined (r :: rs)).
Qed.

(** ** The normalizer: the claims *)

(** [flatten] on every node: the inlined request alone when there is no
    list; one resolved request per entry when the inlined request and every
    entry are present; a panic otherwise. *)
Lemma flatten_characterised (c : credentialRequest) :
  credentialRequest_flatten (Some c) =
  if decide (List c = []) then Ok [CredentialRequest c]
  else match CredentialRequest c, mapM id (List c) with
       | Some inlined, Some rs => Ok (map (fun r => Some (resolved inlined r)) rs)
       | _, _ => Panic
       end.
Proof.
  destruct (decide (List c = [])) as [Hl|Hl]; [by apply flatten_singleton|].
  destruct (credentialRequest_flatten (Some c)) as [out| |] eqn:H.
  - apply flatten_Ok_inv in H as (c' & [= <-] & [[? _]|(inl & rs & _ & Hin & Hrs & ->)]);
      [done|].
    rewrite Hin, Hrs.
    replace (mapM id (map Some rs)) with (Some rs); [done|].
    symmetry. apply mapM_Some. clear. induction rs; by constructor.
  - exfalso. rewrite flatten_unfold in H. destruct (decide _); [discriminate|].
    clear -H. unfold range in H. revert H. generalize 0.
    generalize (@nil (option sidecred.CredentialRequest)).
    induction (List c) as [|r l IH]; intros acc i H; [discriminate|].
    simpl in H. unfold flatten_body at 1 in H.
    destruct (CredentialRequest c); [|discriminate]. destruct r; [|discriminate].
    simpl in H. by eapply IH.
  - destruct (CredentialRequest c) as [inlined|] eqn:Hin; [|done].
    destruct (mapM id (List c)) as [rs|] eqn:Hrs; [|done].
    apply mapM_Some in Hrs.
    assert (List c = map Some rs) as Hl'.
    { clear -Hrs. induction Hrs as [|? ? ? ? Hx _ IH]; [done|].
      simpl in *. by rewrite Hx, IH. }
    rewrite (flatten_list c inlined rs) in H; [discriminate|done..|].
    intros ->. by rewrite Hl' in Hl.
Qed.

(** The spec's shorthand expansion example: two requests of type
    ["random"], named ["a"] and ["b"], in that order. *)
Lemma flatten_random_ab :
  credentialRequest_flatten (Some node_random_ab) =
  Ok [Some {| sidecred.Type_ := "random"; sidecred.Name := "a";
              sidecred.RotationWindow := None; sidecred.Config := "" |};
      Some {| sidecred.Type_ := "random"; sidecred.Name := "b";
              sidecred.RotationWindow := None; sidecred.Config := "" |}].
Proof. reflexivity. Qed.

(** C3, where the code departs from it: [flatten] panics exactly on the
    nodes that have a list and lack their inlined request or a list entry.
    On a node with a list and no inlined request, such as
    [{list: [{name: a}]}], it reads the shared type through the nil
    embedded pointer; the claim promises a non-empty sequence with one
    resolved request per entry for every node. ([flatten_singleton],
    [flatten_list] and [flatten_nonempty] are the claim on the nodes whose
    pointers are present.) *)
Theorem flatten_panics_iff (c : credentialRequest) :
  credentialRequest_flatten (Some c) = Panic <->
  List c <> [] /\ (CredentialRequest c = None \/ None ∈ List c).
Proof.
  rewrite flatten_characterised.
  destruct (decide (List c = [])) as [Hl|Hl].
  { split; [discriminate | by intros [? _]]. }
  destruct (CredentialRequest c) as [inlined|]; [|by split; [split; [|left]|]].
  destruct (mapM id (List c)) as [rs|] eqn:Hrs.
  - split; [discriminate|]. intros [_ [?|Hin]]; [discriminate|]. exfalso.
    assert (is_Some (mapM id (List c))) as Hs by (by rewrite Hrs).
    apply mapM_is_Some in Hs. rewrite Forall_forall in Hs.
    destruct (Hs None Hin) as [? ?]. discriminate.
  - split; [|done]. intros _. split; [done|]. right.
    assert (~ Forall (is_Some ∘ id) (List c)) as Hn.
    { intros Hs. apply mapM_is_Some in Hs. rewrite Hrs in Hs. by destruct Hs. }
    apply not_Forall_Exists in Hn; [|apply _].
    apply Exists_exists in Hn as ([r|] & Hr & Hnr); [|done].
    exfalso. apply Hnr. simpl. by eexists.
Qed.

Lemma flatten_list_only_panics :
  credentialRequest_flatten (Some node_list_only) = Panic.
Proof.
  apply (proj2 (flatten_panics_iff node_list_only)).
  split; [discriminate | by left].
Defined.

(** The first list entry that declares a type, if any. *)
Lemma first_typed_entry (rs : list sidecred.CredentialRequest) :
  Exists (fun r => sidecred.Type_ r <> "") rs ->
  exists before r after, rs = before ++ r :: after /\
    Forall (fun r => sidecred.Type_ r = "") before /\ sidecred.Type_ r <> "".
Proof.
  induction 1 as [r rs Hr|r rs _ IH].
  - by exists [], r, rs.
  - destruct (decide (sidecred.Type_ r = "")) as [Hr|Hr].
    + destruct IH as (before & r' & after & -> & Hb & Hr').
      exists (r :: before), r', after. split; [done|]. split; [by constructor | done].
    + by exists [], r, rs.
Qed.

(** A node with a list, whose inlined request and list entries are present,
    is rejected when its own name or its own configuration is non-empty,
    or when an entry declares a type; in the last case, with a name and a
    configuration that are empty, the error reports the index of the first
    such entry. *)
Lemma validate_rejects_list (c : credentialRequest)
    (inlined : sidecred.CredentialRequest) (rs : list sidecred.CredentialRequest) :
  CredentialRequest c = Some inlined ->
  List c = map Some rs ->
  rs <> [] ->
  sidecred.Name inlined <> "" \/ sidecred.Config inlined <> "" \/
    Exists (fun r => sidecred.Type_ r <> "") rs ->
  exists err, credentialRequest_validate (Some c) = Error err /\
    (err = NotForLists "name" \/ err = NotForLists "config" \/
     exists i r, err = ListEntryType i /\ rs !! i = Some r /\ sidecred.Type_ r <> "").
Proof.
  intros Hin Hl Hne H.
  assert (List c <> []) as Hl' by (rewrite Hl; by destruct rs).
  destruct (decide (sidecred.Name inlined = "")) as [Hn|Hn].
  2:{ exists (NotForLists "name"). split; [by eapply validate_list_name | by left]. }
  destruct (decide (sidecred.Config inlined = "")) as [Hc|Hc].
  2:{ exists (NotForLists "config").
      split; [by eapply validate_list_config | right; by left]. }
  destruct H as [?|[?|H]]; [done..|].
  apply first_typed_entry in H as (before & r & after & -> & Hb & Hr).
  exists (ListEntryType (length before)). split.
  - apply (validate_list_entry_type c inlined r before (map Some after)); try done.
    by rewrite Hl, map_app.
  - right; right. exists (length before), r. split; [done|]. split; [|done].
    by rewrite lookup_app_r, Nat.sub_diag by lia.
Qed.

(** C4, where the code departs from it: shorthand validation of a node that
    has a list and no inlined request reads the node's own name through the
    nil embedded pointer and panics, whatever the list holds; for the node
    [{list: [{type: random, name: a}]}], whose entry declares its own type,
    the claim promises an InvalidShorthand error for entry 0.
    ([validate_rejects_list] is the claim on the nodes whose pointers are
    present.) *)
Theorem validate_panics_without_inlined_request (c : credentialRequest) :
  List c <> [] ->
  CredentialRequest c = None ->
  credentialRequest_validate (Some c) = Panic.
Proof.
  intros Hl Hin. rewrite validate_unfold, Hin.
  destruct (decide (length (List c) = 0)) as [Hz|_]; [|done].
  by apply length_zero_iff_nil in Hz.
Qed.

Lemma validate_list_only_typed_panics :
  credentialRequest_validate (Some node_list_only_typed) = Panic /\
  Exists (fun r => r = Some entry_typed /\ sidecred.Type_ entry_typed <> "")
    (List node_list_only_typed).
Proof.
  split.
  - apply validate_panics_without_inlined_request; [discriminate | reflexivity].
  - left. split; [reflexivity | discriminate].
Defined.

(** The registry knows no type [""]. *)
Lemma parseProviderConfig_no_type `{Providers} (config : string) :
  parseProviderConfig "" config = Error (UnknownType "").
Proof. reflexivity. Qed.

(** C9, as the code has it: shorthand validation looks at nodes with a list
    only. A node without a list passes it, whatever its own fields, the
    node with no name, no configuration and no type included; a node with a
    list and a name or a configuration of its own fails it. A node without
    a list whose inlined request is present and has the empty type is
    rejected afterwards, by the validation of the document, as a request of
    unknown type. *)
Theorem shorthand_validation_checks_lists_only `{Providers} (c : credentialRequest) :
  (List c = [] -> credentialRequest_validate (Some c) = Ok tt) /\
  (forall inlined,
     List c <> [] -> CredentialRequest c = Some inlined ->
     sidecred.Name inlined <> "" \/ sidecred.Config inlined <> "" ->
     exists field, credentialRequest_validate (Some c) = Error (NotForLists field)) /\
  (forall inlined i store ii seen,
     List c = [] -> CredentialRequest c = Some inlined ->
     sidecred.Type_ inlined = "" ->
     validate_cred i store ii (Some c) seen =
     Error (CredsParseConfig i ii (UnknownType ""))).
Proof.
  split; [apply validate_no_list|]. split.
  - intros inlined Hl Hin Hor.
    destruct (decide (sidecred.Name inlined = "")) as [Hn|Hn].
    + destruct Hor as [?|Hc]; [done|].
      exists "config". by eapply validate_list_config.
    + exists "name". by eapply validate_list_name.
  - intros inlined i store ii seen Hl Hin Ht.
    rewrite validate_cred_unfold, validate_no_list, flatten_singleton by done.
    rewrite Hin. unfold range. simpl. unfold flattened_loop, validate_flattened.
    simpl. by rewrite Ht, parseProviderConfig_no_type.
Qed.

(** C9 as stated fails: the node with an empty list and empty singleton
    fields passes shorthand validation, both as [{}] and as [{type: ""}]. *)
Lemma shorthand_validation_accepts_empty_node :
  credentialRequest_validate (Some node_empty) = Ok tt /\
  credentialRequest_validate (Some node_empty_fields) = Ok tt.
Proof. split; reflexivity. Qed.

Lemma shorthand_validation_checks_lists_only_witness :
  credentialRequest_validate (Some node_empty_fields) = Ok tt /\
  (exists field,
     credentialRequest_validate (Some node_both_populated) = Error (NotForLists field)) /\
  @validate_cred sample_providers 0 "inprocess" 0 (Some node_empty_fields) ∅ =
  Error (CredsParseConfig 0 0 (UnknownType "")).
Proof.
  split; [|split].
  - apply (proj1 (@shorthand_validation_checks_lists_only sample_providers
                    node_empty_fields)).
    reflexivity.
  - apply (proj1 (proj2 (@shorthand_validation_checks_lists_only sample_providers
                           node_both_populated)) inlined_random_x);
      [discriminate | reflexivity | left; discriminate].
  - apply (proj2 (proj2 (@shorthand_validation_checks_lists_only sample_providers
                           node_empty_fields)) inlined_no_fields); reflexivity.
Defined.

(** ** The versioned parser: the claims *)

(** C1, as the code has it: [Parse] returns a configuration exactly when the
    version probe decodes to version 1 and the strict decode of the
    document succeeds, and the configuration it returns is the decoded
    model as it is. [Parse] never calls [Validate]. *)
Theorem Parse_ok_iff `{Decoder v1} (b : string) (cfg : ptr v1) :
  Parse b = Ok cfg <->
  yaml_Unmarshal b = inr (Some 1%Z) /\ yaml_UnmarshalStrict b = inr cfg.
Proof.
  unfold Parse. split.
  - destruct (yaml_Unmarshal b) as [err|[version|]]; [discriminate| |discriminate].
    destruct (decide (version = 1%Z)) as [->|]; [|discriminate].
    destruct (yaml_UnmarshalStrict b); [discriminate|]. by intros [= ->].
  - intros [-> ->]. reflexivity.
Qed.

(** C1 as stated fails: the document that gives the version alone parses,
    and [Validate] rejects the configuration that [Parse] returned. *)
Lemma Parse_does_not_validate :
  @Parse sample_decoder "version: 1" = Ok (Some v1_only_version) /\
  @v1_Validate sample_providers (Some v1_only_version) =
  Error (MustBeDefined "namespace").
Proof. split; reflexivity. Qed.

Lemma Parse_ok_iff_witness :
  @Parse sample_decoder "version: 1" = Ok (Some v1_only_version).
Proof.
  apply (proj2 (@Parse_ok_iff sample_decoder "version: 1" (Some v1_only_version))).
  split; reflexivity.
Defined.

(** C6: a document without a version fails as a missing version, a document
    of a version other than 1 fails as an unknown version that names the
    value, whatever the strict decoder would say of the document; an error
    of the strict decode is returned for version 1 only. *)
Theorem Parse_version_gate `{Decoder v1} (b : string) :
  (yaml_Unmarshal b = inr None -> Parse b = Error (MustBeDefined "version")) /\
  (forall version, yaml_Unmarshal b = inr (Some version) -> version <> 1%Z ->
     Parse b = Error (UnknownVersion version)) /\
  (forall version err, Parse b = Error (UnmarshalConfigVersion version err) ->
     version = 1%Z /\ yaml_Unmarshal b = inr (Some 1%Z) /\
     yaml_UnmarshalStrict b = inl err).
Proof.
  unfold Parse. split; [by intros ->|]. split.
  - intros version -> Hv. by destruct (decide (version = 1%Z)).
  - intros version err.
    destruct (yaml_Unmarshal b) as [?|[v|]]; [discriminate| |discriminate].
    destruct (decide (v = 1%Z)) as [->|]; [|discriminate].
    destruct (yaml_UnmarshalStrict b); [|discriminate]. by intros [= <- <-].
Qed.

Lemma Parse_version_gate_witness :
  @Parse sample_decoder "namespace: ns" = Error (MustBeDefined "version") /\
  @Parse sample_decoder "version: 2" = Error (UnknownVersion 2).
Proof.
  split.
  - apply (proj1 (@Parse_version_gate sample_decoder "namespace: ns")). reflexivity.
  - apply (proj1 (proj2 (@Parse_version_gate sample_decoder "version: 2"))).
    + reflexivity.
    + discriminate.
Defined.

(** ** The validator: the claims *)

Section Claims.
Context {providers : Providers}.

Lemma Validate_unfold (c : v1) :
  v1_Validate (Some c) =
  if decide (CredentialNamespace c = "") then Error (MustBeDefined "namespace")
  else if decide (length (CredentialStores c) = 0) then Error (MustBeDefined "stores")
  else
    do stores <- range validate_store (CredentialStores c) ∅;
    do _ <- range (validate_request stores) (CredentialRequests c) ∅;
    Ok tt.
Proof. reflexivity. Qed.

Lemma node_passes_returns (n : ptr credentialRequest) :
  node_passes n -> node_returns n /\ node_out n = map Some (node_flat n).
Proof.
  intros (_ & Hf & _). split; [by eexists|]. unfold node_out. by rewrite Hf.
Qed.

Lemma creds_out (ns : list (ptr credentialRequest)) :
  Forall node_passes ns ->
  Forall node_returns ns /\ flat_map node_out ns = map Some (creds_flat ns) /\
  Forall provider_ok (creds_flat ns).
Proof.
  induction 1 as [|n ns Hn _ (IH1 & IH2 & IH3)]; [by repeat constructor|].
  destruct (node_passes_returns n Hn) as [Hr Ho]. destruct Hn as (_ & _ & Hp).
  unfold creds_flat in *. simpl. split; [by constructor|]. split.
  - by rewrite Ho, IH2, map_app.
  - by apply Forall_app.
Qed.

Lemma groups_out (known : list string) (l : list (ptr requestV1)) :
  Forall (group_passes known) l ->
  exists gs, l = map Some gs /\
    Forall (fun g => Store g ∈ known) gs /\
    Forall (fun g => Forall node_returns (Creds g)) gs /\
    flattened (map credentials_map gs) =
      map (fun sr => (sr.1, Some sr.2)) (doc_requests gs) /\
    doc_keys l = map request_key (doc_requests gs) /\
    Forall (fun sr => provider_ok sr.2) (doc_requests gs).
Proof.
  induction 1 as [|p l (g & -> & Hs & Hns) _ (gs & -> & IH1 & IH2 & IH3 & IH4 & IH5)].
  - exists []. by repeat constructor.
  - exists (g :: gs). destruct (creds_out _ Hns) as (Hr & Ho & Hp).
    split; [done|]. split; [by constructor|]. split; [by constructor|].
    unfold doc_requests, doc_keys, flattened in *. simpl.
    rewrite !map_app. split; [|split].
    + rewrite IH3. f_equal. unfold group_requests.
      rewrite Ho, !map_map. reflexivity.
    + rewrite IH4. f_equal. unfold group_requests, keys.
      rewrite map_map. reflexivity.
    + apply Forall_app. split; [|done]. unfold group_requests.
      apply Forall_map. simpl. done.
Qed.

(** [Validate] returns nil only when every check passes. *)
Lemma Validate_Ok_inv (c : v1) :
  v1_Validate (Some c) = Ok tt ->
  CredentialNamespace c <> "" /\
  exists ss : list sidecred.StoreConfig,
    CredentialStores c = map Some ss /\ ss <> [] /\
    Forall known_store ss /\ NoDup (aliases ss) /\
    Forall (group_passes (aliases ss)) (CredentialRequests c) /\
    NoDup (doc_keys (CredentialRequests c)).
Proof.
  rewrite Validate_unfold.
  destruct (decide (CredentialNamespace c = "")) as [|Hns]; [discriminate|].
  destruct (decide (length (CredentialStores c) = 0)) as [|Hlen]; [discriminate|].
  intros (stores & Hstores & (seen & Hreqs & _)%bind_Ok_inv)%bind_Ok_inv.
  split; [done|].
  apply validate_stores_Ok_inv in Hstores as (ss & Hss & Hk & Hnd & _ & ->).
  apply (requests_loop_Ok_inv _ (aliases ss)) in Hreqs as (Hgs & Hndk & _ & _).
  2:{ intros a. set_solver. }
  exists ss. split; [done|]. split; [by intros ->; rewrite Hss in Hlen|]. done.
Qed.

(** C2: when [Validate] returns nil, the namespace is non-empty; the stores
    are present, at least one, each of a known type, with pairwise distinct
    aliases; every request group is present and its store is the alias of a
    store; and the flattened requests that [Requests] returns are all
    present, have pairwise distinct (store, name) keys, and each has a
    configuration that decodes into, and passes the validation of, the
    provider schema registered for its type. *)
Theorem Validate_ok_invariants (c : v1) :
  v1_Validate (Some c) = Ok tt ->
  CredentialNamespace c <> "" /\
  exists (ss : list sidecred.StoreConfig) (gs : list requestV1)
         (rs : list (string * sidecred.CredentialRequest)),
    CredentialStores c = map Some ss /\ ss <> [] /\
    Forall known_store ss /\ NoDup (aliases ss) /\
    CredentialRequests c = map Some gs /\
    Forall (fun g => Store g ∈ aliases ss) gs /\
    (exists ms, v1_Requests (Some c) = Ok ms /\
                flattened ms = map (fun sr => (sr.1, Some sr.2)) rs) /\
    NoDup (map request_key rs) /\
    Forall (fun sr => provider_ok sr.2) rs.
Proof.
  intros (Hns & ss & Hss & Hne & Hk & Hnd & Hgs & Hndk)%Validate_Ok_inv.
  split; [done|].
  apply groups_out in Hgs as (gs & Hc & Hst & Hret & Hfl & Hkeys & Hp).
  exists ss, gs, (doc_requests gs).
  split; [done|]. split; [done|].
  split; [done|]. split; [done|]. split; [done|]. split; [done|]. split.
  - exists (map credentials_map gs). split; [by apply Requests_spec | done].
  - split; [by rewrite <- Hkeys | done].
Qed.

(** The checks that precede the loop over the request groups pass: the
    namespace is non-empty and the stores are present, at least one, of
    known types and under pairwise distinct aliases. *)
Lemma Validate_stores_pass (c : v1) (ss : list sidecred.StoreConfig) :
  CredentialNamespace c <> "" ->
  CredentialStores c = map Some ss ->
  ss <> [] ->
  Forall known_store ss ->
  NoDup (aliases ss) ->
  v1_Validate (Some c) =
  do _ <- range (validate_request (list_to_set (aliases ss) ∪ ∅))
            (CredentialRequests c) ∅;
  Ok tt.
Proof.
  intros Hns Hss Hne Hk Hnd. rewrite Validate_unfold, Hss.
  destruct (decide (CredentialNamespace c = "")); [done|].
  destruct (decide _) as [Hz|_].
  { rewrite length_map in Hz. by destruct ss. }
  unfold range at 1. rewrite validate_stores_ok by (done || set_solver).
  reflexivity.
Qed.

(** When every check before a credential entry passes, an error of the
    checks of that entry is the error of [Validate]. *)
Lemma Validate_at_entry (c : v1) (ss : list sidecred.StoreConfig)
    (gs_before : list (ptr requestV1)) (g : requestV1) (gs_after : list (ptr requestV1))
    (ns_before : list (ptr credentialRequest)) (n : ptr credentialRequest)
    (ns_after : list (ptr credentialRequest)) :
  CredentialNamespace c <> "" ->
  CredentialStores c = map Some ss ->
  ss <> [] ->
  Forall known_store ss ->
  NoDup (aliases ss) ->
  CredentialRequests c = gs_before ++ Some g :: gs_after ->
  Forall (group_passes (aliases ss)) gs_before ->
  Store g ∈ aliases ss ->
  Creds g = ns_before ++ n :: ns_after ->
  Forall node_passes ns_before ->
  NoDup (doc_keys gs_before ++ keys (Store g) (creds_flat ns_before)) ->
  exists seen : gset (string * string),
    (forall k, k ∈ seen <->
               k ∈ doc_keys gs_before ++ keys (Store g) (creds_flat ns_before)) /\
    forall err,
      validate_cred (length gs_before) (Store g) (length ns_before) n seen = Error err ->
      v1_Validate (Some c) = Error err.
Proof.
  intros Hns Hss Hne Hk Hnd Hgs Hbefore Hstore Hcreds Hnodes Hndk.
  apply NoDup_app in Hndk as (Hnd1 & Hdisj & Hnd2).
  assert (forall a, a ∈ (list_to_set (aliases ss) ∪ ∅ : gset string) <-> a ∈ aliases ss)
    as Hknown by (intros a; set_solver).
  eexists. split; [|intros err Herr].
  2:{ rewrite (Validate_stores_pass c ss) by done. rewrite Hgs. unfold range.
      rewrite range_from_app, (requests_loop_ok _ (aliases ss) Hknown)
        by (done || set_solver).
      simpl. unfold validate_request at 1. simpl.
      destruct (decide (Store g ∈ _)) as [_|Hn]; [|by exfalso; apply Hn, Hknown].
      rewrite Hcreds. unfold range. rewrite range_from_app, creds_loop_ok; [|done..|].
      2:{ intros k Hin1. apply not_elem_of_union. split; [|set_solver].
          rewrite elem_of_list_to_set. intros Hin2. by apply (Hdisj k). }
      simpl. by rewrite Herr. }
  intros k. rewrite !elem_of_union, !elem_of_list_to_set, elem_of_app, elem_of_empty.
  tauto.
Qed.

(** C7, as the code has it: a configuration in which a flattened request
    has the (store, name) key of an earlier flattened request, from the
    same list, from another credential entry or from another request group
    of the same store, is never valid. When the request is the first to
    repeat a key and every check of what comes before its credential entry
    passes, [Validate] returns an error with the indexes of the request's
    group and credential entry, which the checks of that entry decide in
    the order of the code: the error of shorthand validation, if the entry
    fails it; else, the requests flattened before it from the entry passing
    the provider checks, the parse error or the validity error of the
    request's own provider configuration, if there is one; and else the
    duplicated-request error with the key. *)
Theorem Validate_duplicate_request (c : v1)
    (gs_before : list (ptr requestV1)) (g : requestV1) (gs_after : list (ptr requestV1))
    (ns_before : list (ptr credentialRequest)) (n : ptr credentialRequest)
    (ns_after : list (ptr credentialRequest))
    (before : list sidecred.CredentialRequest) (r : sidecred.CredentialRequest)
    (after : list (ptr sidecred.CredentialRequest)) :
  CredentialRequests c = gs_before ++ Some g :: gs_after ->
  Creds g = ns_before ++ n :: ns_after ->
  credentialRequest_flatten n = Ok (map Some before ++ Some r :: after) ->
  key (Store g) r ∈ doc_keys gs_before ++ keys (Store g) (creds_flat ns_before ++ before) ->
  v1_Validate (Some c) <> Ok tt /\
  forall ss : list sidecred.StoreConfig,
    CredentialNamespace c <> "" ->
    CredentialStores c = map Some ss ->
    ss <> [] ->
    Forall known_store ss ->
    NoDup (aliases ss) ->
    Forall (group_passes (aliases ss)) gs_before ->
    Store g ∈ aliases ss ->
    Forall node_passes ns_before ->
    NoDup (doc_keys gs_before ++ keys (Store g) (creds_flat ns_before ++ before)) ->
    (forall err, credentialRequest_validate n = Error err ->
       v1_Validate (Some c) =
       Error (CredsInvalid (length gs_before) (length ns_before) err)) /\
    (credentialRequest_validate n = Ok tt ->
     Forall provider_ok before ->
     (forall err,
        parseProviderConfig (sidecred.Type_ r) (sidecred.Config r) = Error err ->
        v1_Validate (Some c) =
        Error (CredsParseConfig (length gs_before) (length ns_before) err)) /\
     (forall config err,
        parseProviderConfig (sidecred.Type_ r) (sidecred.Config r) = Ok config ->
        sidecred.Validate_value config = Some err ->
        v1_Validate (Some c) =
        Error (CredsInvalidConfig (length gs_before) (length ns_before) err)) /\
     (provider_ok r ->
      v1_Validate (Some c) =
      Error (CredsDuplicated (length gs_before) (length ns_before)
               (Store g) (sidecred.Name r)))).
Proof.
  intros Hgs Hcreds Hf Hin. split.
  - intros (_ & _ & _ & _ & _ & _ & _ & Hndk)%Validate_Ok_inv.
    rewrite Hgs in Hndk. unfold doc_keys in Hndk.
    rewrite flat_map_app in Hndk. simpl in Hndk. rewrite Hcreds in Hndk.
    unfold creds_flat in Hndk. rewrite flat_map_app in Hndk. simpl in Hndk.
    unfold node_flat at 2 in Hndk. rewrite Hf, omap_app in Hndk. simpl in Hndk.
    rewrite (omap_id_Some before), !keys_app in Hndk. simpl in Hndk.
    rewrite !app_assoc in Hndk. rewrite <- (app_assoc _ _ (keys (Store g) before)) in Hndk.
    rewrite <- !app_assoc in Hndk.
    change (flat_map group_keys gs_before) with (doc_keys gs_before) in Hndk.
    change (flat_map node_flat ns_before) with (creds_flat ns_before) in Hndk.
    rewrite (app_assoc (keys _ _)), <- keys_app, app_assoc in Hndk.
    apply NoDup_app in Hndk as (_ & Hdisj & _).
    apply (Hdisj _ Hin). by left.
  - intros ss Hns Hss Hne Hk Hnd Hbefore Hstore Hnodes Hndk.
    assert (NoDup (doc_keys gs_before ++ keys (Store g) (creds_flat ns_before)) /\
            NoDup (keys (Store g) before) /\
            forall k, k ∈ keys (Store g) before ->
                      k ∉ doc_keys gs_before ++ keys (Store g) (creds_flat ns_before))
      as (Hndk1 & Hndk2 & Hdisj).
    { rewrite keys_app, app_assoc in Hndk.
      apply NoDup_app in Hndk as (H1 & H2 & H3). split; [done|]. split; [done|].
      intros k Hk1 Hk2. by apply (H2 k). }
    destruct (Validate_at_entry c ss gs_before g gs_after ns_before n ns_after)
      as (seen & Hseen & Hat); [done..|].
    split.
    { intros err Hv. apply Hat. by rewrite validate_cred_unfold, Hv. }
    intros Hv Hb.
    assert (forall err,
              flattened_loop (length gs_before) (length ns_before) (Store g)
                (length before) (Some r)
                (list_to_set (keys (Store g) before) ∪ seen) = Error err ->
              v1_Validate (Some c) = Error err) as Hat'.
    { intros err Herr. apply Hat. rewrite validate_cred_unfold, Hv, Hf. simpl.
      unfold range. rewrite range_from_app, flattened_loop_ok; [|done..|].
      - simpl. rewrite length_map, Herr. done.
      - intros k Hk1 Hk2%Hseen. by apply (Hdisj k). }
    split; [|split].
    + intros err Hp. apply Hat'. unfold flattened_loop, validate_flattened. simpl.
      by rewrite Hp.
    + intros config err Hp Hc. apply Hat'.
      unfold flattened_loop, validate_flattened. simpl. by rewrite Hp, Hc.
    + intros Hr. apply Hat'. unfold flattened_loop.
      apply validate_flattened_duplicate; [done|].
      rewrite elem_of_union, elem_of_list_to_set, Hseen.
      rewrite keys_app, app_assoc in Hin. apply elem_of_app in Hin. tauto.
Qed.

Lemma map_Some_split {A : Type} (l : list A) (l1 : list A) (x : A) (l2 : list (ptr A)) :
  map Some l = map Some l1 ++ Some x :: l2 ->
  exists l2', l = l1 ++ x :: l2'.
Proof.
  revert l; induction l1 as [|y l1 IH]; intros [|z l] H; simpl in H; try discriminate.
  - injection H as -> _. by exists l.
  - injection H as -> H. apply IH in H as (l2' & ->). by exists l2'.
Qed.

(** C8, as the code has it: a configuration in which a store has the alias
    of an earlier store, the stores before it being present, is never
    valid. With an empty namespace [Validate] returns the namespace error.
    Otherwise it returns the error of the first store, up to the later one,
    that is of unknown type or has the alias of a store before it: the
    unknown-type error with the index and the type of that store, or else
    the duplicate-store error with the index and the alias of that store,
    whatever the known types. So the error is the duplicate-store error
    with the index and the alias of the later store itself when the stores
    up to it are of known types and the stores before it have pairwise
    distinct aliases. *)
Theorem Validate_duplicate_store_alias (c : v1) (before : list sidecred.StoreConfig)
    (s : sidecred.StoreConfig) (after : list (ptr sidecred.StoreConfig)) :
  CredentialStores c = map Some before ++ Some s :: after ->
  sidecred.Alias s ∈ aliases before ->
  v1_Validate (Some c) <> Ok tt /\
  (CredentialNamespace c = "" ->
   v1_Validate (Some c) = Error (MustBeDefined "namespace")) /\
  (CredentialNamespace c <> "" ->
   exists (j : nat) (s' : sidecred.StoreConfig),
     j <= length before /\ (before ++ [s]) !! j = Some s' /\
     Forall known_store (take j before) /\ NoDup (aliases (take j before)) /\
     ((~ known_store s' /\
       v1_Validate (Some c) = Error (StoreUnknownType j (sidecred.Store_Type s'))) \/
      (known_store s' /\ sidecred.Alias s' ∈ aliases (take j before) /\
       v1_Validate (Some c) = Error (StoreDuplicate j (sidecred.Alias s'))))) /\
  (CredentialNamespace c <> "" ->
   Forall known_store before ->
   known_store s ->
   NoDup (aliases before) ->
   v1_Validate (Some c) = Error (StoreDuplicate (length before) (sidecred.Alias s))).
Proof.
  intros Hss Hin.
  assert (length (CredentialStores c) <> 0) as Hlen.
  { rewrite Hss, length_app. simpl. lia. }
  split; [|split; [|split]].
  - intros (_ & ss & Hss' & _ & _ & Hnd & _)%Validate_Ok_inv.
    rewrite Hss' in Hss. apply map_Some_split in Hss as (l2 & ->).
    unfold aliases in Hnd. rewrite map_app in Hnd. simpl in Hnd.
    apply NoDup_app in Hnd as (_ & Hdisj & _).
    apply (Hdisj _ Hin). by left.
  - intros Hns. rewrite Validate_unfold. by destruct (decide _).
  - intros Hns. rewrite Validate_unfold.
    destruct (decide (CredentialNamespace c = "")); [done|].
    destruct (decide _); [done|]. rewrite Hss.
    destruct (validate_stores_first_failure (before ++ [s]) after 0 ∅
                (length before) s)
      as (j & s' & Hj & Hl & Hk & Hnd & _ & Hres).
    { by rewrite list_lookup_middle. }
    { right. by rewrite take_app_length. }
    rewrite take_app_le in Hk, Hnd, Hres by done.
    rewrite map_app, <- app_assoc in Hres. simpl in Hres.
    exists j, s'. split; [done|]. split; [done|]. split; [done|]. split; [done|].
    unfold range.
    destruct Hres as [[Hu ->]|(Hk' & [Hin'|Hin'] & ->)]; [by left|set_solver|by right].
  - intros Hns Hk Hs Hnd. rewrite Validate_unfold, Hss.
    destruct (decide (CredentialNamespace c = "")); [done|].
    destruct (decide _) as [Hz|_].
    { rewrite length_app in Hz. simpl in Hz. lia. }
    by rewrite validate_stores_duplicate.
Qed.

End Claims.

(** C2 on the spec's end-to-end example. *)
Lemma Validate_ok_invariants_witness :
  @v1_Validate sample_providers (Some document_r1) = Ok tt /\
  CredentialNamespace document_r1 <> "".
Proof.
  assert (@v1_Validate sample_providers (Some document_r1) = Ok tt) as H
    by (vm_compute; reflexivity).
  split; [exact H|].
  exact (proj1 (@Validate_ok_invariants sample_providers document_r1 H)).
Defined.

Lemma provider_ok_random (name config : string) :
  @provider_ok sample_providers
    {| sidecred.Type_ := sidecred.Randomized; sidecred.Name := name;
       sidecred.RotationWindow := None; sidecred.Config := config |}.
Proof. eexists. split; reflexivity. Qed.

Lemma Validate_duplicate_request_witness :
  @v1_Validate sample_providers (Some document_duplicate_nodes) =
    Error (CredsDuplicated 0 1 "inprocess" "b") /\
  @v1_Validate sample_providers (Some document_duplicate_unknown_type) =
    Error (CredsParseConfig 0 1 (UnknownType "bogus")) /\
  @v1_Validate sample_providers (Some document_duplicate_both_populated) =
    Error (CredsInvalid 0 1 (NotForLists "name")).
Proof.
  assert (Forall (@node_passes sample_providers) [Some node_random_ab]) as Hab.
  { constructor; [|constructor]. split; [reflexivity|]. split; [reflexivity|].
    repeat constructor; apply provider_ok_random. }
  assert (Forall (@node_passes sample_providers) [Some node_r1]) as Hr1.
  { constructor; [|constructor]. split; [reflexivity|]. split; [reflexivity|].
    repeat constructor; apply provider_ok_random. }
  assert (NoDup (aliases [store_inprocess])) as Hnd.
  { repeat constructor. apply not_elem_of_nil. }
  assert (Forall known_store [store_inprocess]) as Hk by repeat constructor.
  split; [|split].
  - destruct (@Validate_duplicate_request sample_providers document_duplicate_nodes
                [] {| Store := "inprocess";
                      Creds := [Some node_random_ab; Some node_random_b] |} []
                [Some node_random_ab] (Some node_random_b) []
                [] (resolved inlined_random entry_b) [])
      as [_ H]; [reflexivity | reflexivity | reflexivity | vm_compute; right; left |].
    destruct (H [store_inprocess]) as [_ H']; [discriminate | reflexivity | discriminate
      | exact Hk | exact Hnd | constructor | by left | exact Hab | |].
    { vm_compute. repeat constructor; rewrite ?elem_of_cons, ?elem_of_nil;
        intros Hin; repeat destruct Hin as [Hin|Hin]; (discriminate || done). }
    destruct H' as (_ & _ & Hdup); [reflexivity | constructor |].
    apply Hdup, provider_ok_random.
  - destruct (@Validate_duplicate_request sample_providers
                document_duplicate_unknown_type
                [] {| Store := "inprocess";
                      Creds := [Some node_r1; Some node_bogus_r1] |} []
                [Some node_r1] (Some node_bogus_r1) []
                [] request_bogus_r1 [])
      as [_ H]; [reflexivity | reflexivity | reflexivity | vm_compute; left |].
    destruct (H [store_inprocess]) as [_ H']; [discriminate | reflexivity | discriminate
      | exact Hk | exact Hnd | constructor | by left | exact Hr1 | |].
    { vm_compute. repeat constructor. apply not_elem_of_nil. }
    destruct H' as (Hparse & _); [reflexivity | constructor |].
    apply Hparse. reflexivity.
  - destruct (@Validate_duplicate_request sample_providers
                document_duplicate_both_populated
                [] {| Store := "inprocess";
                      Creds := [Some node_random_ab; Some node_both_populated] |} []
                [Some node_random_ab] (Some node_both_populated) []
                [] (resolved inlined_random_x entry_a) [])
      as [_ H]; [reflexivity | reflexivity | reflexivity | vm_compute; left |].
    destruct (H [store_inprocess]) as [Hshort _]; [discriminate | reflexivity
      | discriminate | exact Hk | exact Hnd | constructor | by left | exact Hab | |].
    { vm_compute. repeat constructor; rewrite ?elem_of_cons, ?elem_of_nil;
        intros Hin; repeat destruct Hin as [Hin|Hin]; (discriminate || done). }
    apply Hshort. reflexivity.
Defined.

(** C7 as stated fails: with two flattened requests under one (store, name)
    key, the earlier of which passes every check, the error is not the
    duplicated-request error when the later one is of no recognized type,
    or when its credential entry fails shorthand validation. [Requests]
    returns both requests of each configuration. *)
Lemma Validate_duplicate_request_reported_later :
  key "inprocess" request_bogus_r1 = key "inprocess" request_r1 /\
  v1_Requests (Some document_duplicate_unknown_type) =
    Ok [Some {| sidecred.Store := "inprocess";
                sidecred.Credentials := [Some request_r1; Some request_bogus_r1] |}] /\
  @v1_Validate sample_providers (Some document_r1) = Ok tt /\
  @v1_Validate sample_providers (Some document_duplicate_unknown_type) =
    Error (CredsParseConfig 0 1 (UnknownType "bogus")) /\
  v1_Requests (Some document_duplicate_both_populated) =
    Ok [Some {| sidecred.Store := "inprocess";
                sidecred.Credentials :=
                  [Some (resolved inlined_random entry_a);
                   Some (resolved inlined_random entry_b);
                   Some (resolved inlined_random_x entry_a)] |}] /\
  key "inprocess" (resolved inlined_random_x entry_a) =
    key "inprocess" (resolved inlined_random entry_a) /\
  @v1_Validate sample_providers (Some (document "ns" [store_inprocess] [node_random_ab])) =
    Ok tt /\
  @v1_Validate sample_providers (Some document_duplicate_both_populated) =
    Error (CredsInvalid 0 1 (NotForLists "name")).
Proof. repeat split. Qed.

(** The same for two request groups bound to one store. *)
Example Validate_duplicate_across_groups :
  @v1_Validate sample_providers (Some document_duplicate_groups) =
  Error (CredsDuplicated 1 1 "inprocess" "r1").
Proof. vm_compute. reflexivity. Qed.

(** C8 as stated fails: with two stores under one alias the error is not
    the duplicate-store error when the first of them is of unknown type,
    or when the namespace is empty. *)
Lemma Validate_duplicate_store_alias_reported_later :
  sidecred.Alias store_unknown_named_inprocess = sidecred.Alias store_inprocess /\
  @v1_Validate sample_providers (Some document_unknown_store_first) =
    Error (StoreUnknownType 0 "vault") /\
  sidecred.Alias store_inprocess = sidecred.Alias store_ssm_named_inprocess /\
  @v1_Validate sample_providers (Some document_duplicate_stores_no_namespace) =
    Error (MustBeDefined "namespace").
Proof. repeat split. Qed.

Lemma Validate_duplicate_store_alias_witness :
  @v1_Validate sample_providers (Some document_duplicate_stores) =
    Error (StoreDuplicate 1 "inprocess") /\
  @v1_Validate sample_providers (Some document_duplicate_stores_then_unknown) =
    Error (StoreDuplicate 1 "inprocess") /\
  @v1_Validate sample_providers (Some document_duplicate_stores_no_namespace) =
    Error (MustBeDefined "namespace").
Proof.
  split; [|split].
  - apply (proj2 (proj2 (proj2 (@Validate_duplicate_store_alias sample_providers
                    document_duplicate_stores [store_inprocess]
                    store_ssm_named_inprocess []
                    eq_refl (list_elem_of_here _ _))))).
    + discriminate.
    + repeat constructor.
    + right. left.
    + repeat constructor. apply not_elem_of_nil.
  - apply (proj2 (proj2 (proj2 (@Validate_duplicate_store_alias sample_providers
                    document_duplicate_stores_then_unknown [store_inprocess]
                    store_ssm_named_inprocess
                    [Some store_vault; Some store_secretsmanager_named_inprocess]
                    eq_refl (list_elem_of_here _ _))))).
    + discriminate.
    + repeat constructor.
    + right. left.
    + repeat constructor. apply not_elem_of_nil.
  - apply (proj1 (proj2 (@Validate_duplicate_store_alias sample_providers
                    document_duplicate_stores_no_namespace [store_inprocess]
                    store_ssm_named_inprocess []
                    eq_refl (list_elem_of_here _ _)))).
    reflexivity.
Defined.

(** The spec's end-to-end example validates, and yields one store and one
    flattened request named ["r1"]. *)
Example Validate_document_r1 :
  @v1_Validate sample_providers (Some document_r1) = Ok tt /\
  v1_Stores (Some document_r1) = Ok [Some store_inprocess] /\
  v1_Requests (Some document_r1) =
    Ok [Some {| sidecred.Store := "inprocess";
                sidecred.Credentials := [Some request_r1] |}].
Proof. repeat split. Qed.

(** C5, where the code departs from it: when every check before a
    credential entry passes and the entry has no inlined request,
    [Validate] returns no error at all: it panics. If the entry has a list,
    shorthand validation reads the node's own name through the nil embedded
    pointer, also when a list entry declares its own type, which the claim
    has reported. If it has none, as [{}], its request has no known type,
    which the claim has reported too; the flattened request is the nil
    embedded pointer, whose type the provider lookup reads.
    ([Validate_first_violation] is the claim on the documents whose pointers
    are present.) *)
Theorem Validate_panics_without_inlined_request `{Providers} (c : v1)
    (ss : list sidecred.StoreConfig)
    (gs_before : list (ptr requestV1)) (g : requestV1) (gs_after : list (ptr requestV1))
    (ns_before : list (ptr credentialRequest)) (n : credentialRequest)
    (ns_after : list (ptr credentialRequest)) :
  CredentialNamespace c <> "" ->
  CredentialStores c = map Some ss ->
  ss <> [] ->
  Forall known_store ss ->
  NoDup (aliases ss) ->
  CredentialRequests c = gs_before ++ Some g :: gs_after ->
  Forall (group_passes (aliases ss)) gs_before ->
  Store g ∈ aliases ss ->
  Creds g = ns_before ++ Some n :: ns_after ->
  Forall node_passes ns_before ->
  NoDup (doc_keys gs_before ++ keys (Store g) (creds_flat ns_before)) ->
  CredentialRequest n = None ->
  v1_Validate (Some c) = Panic.
Proof.
  intros Hns Hss Hne Hk Hnd Hgs Hbefore Hstore Hcreds Hnodes Hndk Hin.
  apply NoDup_app in Hndk as (Hnd1 & Hdisj & Hnd2).
  assert (forall a, a ∈ (list_to_set (aliases ss) ∪ ∅ : gset string) <-> a ∈ aliases ss)
    as Hknown by (intros a; set_solver).
  rewrite (Validate_stores_pass c ss) by done. rewrite Hgs. unfold range.
  rewrite range_from_app, (requests_loop_ok _ (aliases ss) Hknown)
    by (done || set_solver).
  simpl. unfold validate_request at 1. simpl.
  destruct (decide (Store g ∈ _)) as [_|Hn]; [|by exfalso; apply Hn, Hknown].
  rewrite Hcreds. unfold range. rewrite range_from_app, creds_loop_ok; [|done..|].
  2:{ intros k Hin1. apply not_elem_of_union. split; [|set_solver].
      rewrite elem_of_list_to_set. intros Hin2. by apply (Hdisj k). }
  simpl. rewrite validate_cred_unfold, validate_unfold, flatten_unfold, Hin.
  by destruct (decide (length (List n) = 0)).
Qed.

Lemma Validate_panics_on_absent_inlined_request :
  @v1_Validate sample_providers (Some document_list_only_typed) = Panic /\
  @v1_Validate sample_providers (Some document_empty_node) = Panic.
Proof.
  split.
  - apply (@Validate_panics_without_inlined_request sample_providers
             document_list_only_typed [store_inprocess]
             [] {| Store := "inprocess"; Creds := [Some node_list_only_typed] |} []
             [] node_list_only_typed []);
      try reflexivity; try discriminate; repeat constructor;
      apply not_elem_of_nil.
  - apply (@Validate_panics_without_inlined_request sample_providers
             document_empty_node [store_inprocess]
             [] {| Store := "inprocess"; Creds := [Some node_empty] |} []
             [] node_empty []);
      try reflexivity; try discriminate; repeat constructor;
      apply not_elem_of_nil.
Defined.

(** C10, where the code departs from it: [Requests] on a configuration with
    a credential entry that has a list and no inlined request, the groups
    and entries before it being present and flattening, panics in
    [flatten]; the claim promises a result for every configuration.
    ([Requests_spec] is the claim on the configurations whose groups are
    present and whose credential entries flatten, [node_returns_iff] says
    which do.) *)
Theorem Requests_panics_without_inlined_request (c : v1)
    (gs_before : list requestV1) (g : requestV1) (gs_after : list (ptr requestV1))
    (ns_before : list (ptr credentialRequest)) (n : credentialRequest)
    (ns_after : list (ptr credentialRequest)) :
  CredentialRequests c = map Some gs_before ++ Some g :: gs_after ->
  Forall (fun g => Forall node_returns (Creds g)) gs_before ->
  Creds g = ns_before ++ Some n :: ns_after ->
  Forall node_returns ns_before ->
  List n <> [] ->
  CredentialRequest n = None ->
  v1_Requests (Some c) = Panic.
Proof.
  intros Hgs Hbefore Hcreds Hnodes Hl Hin.
  change (v1_Requests (Some c)) with (range requests_body (CredentialRequests c) []).
  rewrite Hgs. unfold range. rewrite range_from_app, accessor_loop by done.
  simpl. unfold requests_body at 1. rewrite credentialsMap_unfold, Hcreds.
  unfold range. rewrite range_from_app, credentials_loop by done.
  simpl. unfold credentials_body at 1. rewrite flatten_unfold.
  destruct (List n) as [|r l] eqn:E; [done|]. simpl.
  unfold range. simpl. unfold flatten_body at 1. by rewrite Hin.
Qed.

Lemma Requests_panics_on_list_only :
  v1_Requests (Some document_list_only) = Panic.
Proof.
  apply (Requests_panics_without_inlined_request document_list_only
           [] {| Store := "inprocess"; Creds := [Some node_list_only] |} []
           [] node_list_only []);
    try reflexivity; try discriminate; constructor.
Defined.

(** [Requests] does not validate: on a node with a list and a name and a
    configuration of its own, which [Validate] rejects, it returns the list
    entries under the node's type and drops the node's own name and
    configuration. *)
Example Requests_both_populated :
  @v1_Validate sample_providers
    (Some (document "ns" [store_inprocess] [node_both_populated])) =
    Error (CredsInvalid 0 0 (NotForLists "name")) /\
  v1_Requests (Some (document "ns" [store_inprocess] [node_both_populated])) =
    Ok [Some {| sidecred.Store := "inprocess";
                sidecred.Credentials := [Some (resolved inlined_random entry_a)] |}].
Proof. repeat split. Qed.

(** ** The code against the algorithm of the specification *)

(** A loop over present entries that returns at the first violation, and
    otherwise adds the keys of the entry to its set, does what [in_order]
    says. *)
Lemma range_in_order {A B K : Type} `{Countable K}
    (body : nat -> B -> gset K -> result (gset K)) (inj : A -> B)
    (violations_of : nat -> list K -> A -> list error) (keys_of : A -> list K) :
  (forall i x (set : gset K) seen,
     (forall k, k ∈ set <-> k ∈ seen) ->
     body i (inj x) set =
     match violations_of i seen x with
     | [] => Ok (list_to_set (keys_of x) ∪ set)
     | err :: _ => Error err
     end) ->
  forall xs i (set : gset K) seen,
    (forall k, k ∈ set <-> k ∈ seen) ->
    range_from body i (map inj xs) set =
    match in_order violations_of keys_of i seen xs with
    | [] => Ok (list_to_set (flat_map keys_of xs) ∪ set)
    | err :: _ => Error err
    end.
Proof.
  intros Hbody. induction xs as [|x xs IH]; intros i set seen Hseen; simpl.
  - f_equal. set_solver.
  - rewrite (Hbody i x set seen Hseen).
    destruct (violations_of i seen x) as [|err ?]; simpl; [|done].
    rewrite (IH (S i) _ (seen ++ keys_of x)).
    + destruct (in_order _ _ _ _ _); [|done]. f_equal.
      rewrite list_to_set_app_L. set_solver.
    + intros k. rewrite elem_of_union, elem_of_list_to_set, elem_of_app, Hseen. tauto.
Qed.

Section Refinement.
Context {providers : Providers}.

Lemma parseProviderConfig_returns (t config : string) :
  parseProviderConfig t config <> Panic.
Proof.
  unfold parseProviderConfig, unmarshal.
  repeat (destruct (decide _); [by destruct (UnmarshalInto _ _)|]). done.
Qed.

Lemma spec_flatten_eq (n : spec_node) :
  credentialRequest_flatten (go_node n) = Ok (map Some (spec_flatten n)).
Proof.
  unfold go_node, spec_flatten. destruct (decide (node_list n = [])) as [Hl|Hl].
  - rewrite flatten_singleton; [done|]. simpl. by rewrite Hl.
  - rewrite (flatten_list _ (node_inlined n) (node_list n)) by done.
    by rewrite map_map.
Qed.

Lemma spec_validate_loop (rs : list sidecred.CredentialRequest) (i : nat)
    (seen : list unit) :
  range_from validate_body i (map Some rs) tt =
  first_violation
    (in_order (fun k (_ : list unit) r =>
                 if decide (sidecred.Type_ r = "") then [] else [ListEntryType k])
              (fun _ => []) i seen rs).
Proof.
  revert i seen; induction rs as [|r rs IH]; intros i seen; simpl; [done|].
  unfold validate_body at 1. simpl.
  destruct (decide (sidecred.Type_ r <> "")) as [Hr|Hr];
    destruct (decide (sidecred.Type_ r = "")); try done.
  simpl. apply IH.
Qed.

Lemma spec_validate (n : spec_node) :
  credentialRequest_validate (go_node n) = first_violation (shorthand_violations n).
Proof.
  unfold go_node, shorthand_violations. rewrite validate_unfold. simpl.
  destruct (decide (length (map Some (node_list n)) = 0)) as [Hz|Hz];
    destruct (decide (node_list n = [])) as [Hl|Hl]; try done.
  - rewrite length_map in Hz. by apply length_zero_iff_nil in Hz.
  - by rewrite Hl in Hz.
  - destruct (decide (sidecred.Name (node_inlined n) <> ""));
      destruct (decide (sidecred.Name (node_inlined n) = "")); try done.
    destruct (decide (0 < String.length (sidecred.Config (node_inlined n)))) as [Hc|Hc];
      destruct (decide (sidecred.Config (node_inlined n) = "")) as [Hc'|Hc'];
      try done.
    + apply length_pos_nonempty in Hc. done.
    + simpl. unfold range. rewrite (spec_validate_loop _ 0 []).
      by destruct (in_order _ _ _ _ _).
    + by apply length_pos_nonempty in Hc'.
Qed.

Lemma spec_validate_flattened (i ii : nat) (store : string) (j : nat)
    (r : sidecred.CredentialRequest) (set : gset (string * string))
    (seen : list (string * string)) :
  (forall k, k ∈ set <-> k ∈ seen) ->
  flattened_loop i ii store j (Some r) set =
  match request_violations i ii store seen r with
  | [] => Ok (list_to_set [key store r] ∪ set)
  | err :: _ => Error err
  end.
Proof.
  intros Hseen. unfold flattened_loop, validate_flattened, request_violations. simpl.
  pose proof (parseProviderConfig_returns (sidecred.Type_ r) (sidecred.Config r)).
  destruct (parseProviderConfig _ _) as [c| |]; [|done..].
  destruct (sidecred.Validate_value c); [done|]. simpl. fold (key store r).
  destruct (decide (key store r ∈ set)) as [Hin|Hin];
    destruct (decide (key store r ∈ seen)) as [Hin'|Hin']; try done.
  - by apply Hseen in Hin.
  - by apply Hseen in Hin'.
  - f_equal. set_solver.
Qed.

Lemma keys_flat_map (store : string) (rs : list sidecred.CredentialRequest) :
  flat_map (fun r => [key store r]) rs = keys store rs.
Proof. induction rs as [|r rs IH]; simpl; [done | by rewrite IH]. Qed.

Lemma spec_validate_cred (i : nat) (store : string) (ii : nat) (n : spec_node)
    (set : gset (string * string)) (seen : list (string * string)) :
  (forall k, k ∈ set <-> k ∈ seen) ->
  validate_cred i store ii (go_node n) set =
  match node_violations i store ii seen n with
  | [] => Ok (list_to_set (keys store (spec_flatten n)) ∪ set)
  | err :: _ => Error err
  end.
Proof.
  intros Hseen. rewrite validate_cred_unfold, spec_validate, spec_flatten_eq.
  unfold node_violations.
  destruct (shorthand_violations n) as [|err ?]; simpl; [|done].
  unfold range.
  rewrite (range_in_order (flattened_loop i ii store) Some
             (fun _ => request_violations i ii store) (fun r => [key store r])
             (fun j r => spec_validate_flattened i ii store j r) _ 0 set seen Hseen).
  by rewrite keys_flat_map.
Qed.

Lemma keys_flat_map_nodes (store : string) (ns : list spec_node) :
  flat_map (fun n => keys store (spec_flatten n)) ns =
  keys store (flat_map spec_flatten ns).
Proof.
  induction ns as [|n ns IH]; simpl; [done|]. by rewrite keys_app, IH.
Qed.

Lemma spec_validate_request (stores : gset string) (known : list string)
    (Hknown : forall a, a ∈ stores <-> a ∈ known) (i : nat)
    (g : spec_group) (set : gset (string * string)) (seen : list (string * string)) :
  (forall k, k ∈ set <-> k ∈ seen) ->
  validate_request stores i (go_group g) set =
  match group_violations known i seen g with
  | [] => Ok (list_to_set (keys (group_store g) (flat_map spec_flatten (group_creds g)))
              ∪ set)
  | err :: _ => Error err
  end.
Proof.
  intros Hseen. unfold validate_request, group_violations. simpl.
  destruct (decide (group_store g ∈ stores)) as [Hin|Hin];
    destruct (decide (group_store g ∈ known)) as [Hin'|Hin']; try done.
  - simpl. unfold range.
    rewrite (range_in_order (validate_cred i (group_store g)) go_node
               (node_violations i (group_store g))
               (fun n => keys (group_store g) (spec_flatten n))
               (fun ii n => spec_validate_cred i (group_store g) ii n)
               _ 0 set seen Hseen).
    by rewrite keys_flat_map_nodes.
  - by apply Hknown in Hin.
  - by apply Hknown in Hin'.
Qed.

Lemma spec_validate_store (i : nat) (s : sidecred.StoreConfig) (set : gset string)
    (seen : list string) :
  (forall a, a ∈ set <-> a ∈ seen) ->
  validate_store i (Some s) set =
  match store_violations i seen s with
  | [] => Ok (list_to_set [sidecred.Alias s] ∪ set)
  | err :: _ => Error err
  end.
Proof.
  intros Hseen. unfold validate_store, store_violations. simpl.
  destruct (known_store_type _); [|done]. simpl.
  destruct (decide (sidecred.Alias s ∈ set)) as [Hin|Hin];
    destruct (decide (sidecred.Alias s ∈ seen)) as [Hin'|Hin']; try done.
  - by apply Hseen in Hin.
  - by apply Hseen in Hin'.
  - f_equal. set_solver.
Qed.

Lemma aliases_flat_map (ss : list sidecred.StoreConfig) :
  flat_map (fun s => [sidecred.Alias s]) ss = aliases ss.
Proof. induction ss as [|s ss IH]; simpl; [done | by rewrite IH]. Qed.

(** The claim of C5 on the documents of the specification's data model:
    [Validate] returns nil when the document has no violation, and else
    the first violation in document order, which holds the indexes of the
    store, or of the request group and the credential entry, it is about. *)
Theorem Validate_first_violation (d : spec_config) :
  v1_Validate (go_config d) = first_violation (violations d).
Proof.
  unfold go_config, violations. rewrite Validate_unfold. simpl.
  destruct (decide (config_namespace d = "")); [done|]. simpl.
  destruct (decide (length (map Some (config_stores d)) = 0)) as [Hz|Hz];
    destruct (decide (config_stores d = [])) as [Hs|Hs]; try done.
  - rewrite length_map in Hz. by apply length_zero_iff_nil in Hz.
  - by rewrite Hs in Hz.
  - simpl. unfold range.
    rewrite (range_in_order validate_store Some store_violations
               (fun s => [sidecred.Alias s]) spec_validate_store _ 0 ∅ [])
      by set_solver.
    destruct (in_order store_violations _ _ _ _) as [|err ?]; simpl; [|done].
    assert (forall a, a ∈ (list_to_set (flat_map (fun s => [sidecred.Alias s])
                                      (config_stores d)) ∪ ∅ : gset string)
                      <-> a ∈ aliases (config_stores d)) as Hknown.
    { intros a. rewrite aliases_flat_map. set_solver. }
    rewrite (range_in_order (validate_request _) go_group
               (group_violations (aliases (config_stores d)))
               (fun g => keys (group_store g) (flat_map spec_flatten (group_creds g)))
               (spec_validate_request _ _ Hknown) _ 0 ∅ []).
    + by destruct (in_order _ _ _ _ _).
    + set_solver.
Qed.

End Refinement.

(** [Requests] on the documents of the specification's data model, those
    that [Validate] rejects included: one credentials map per request
    group, in order, with the group's store and the flattened requests of
    its credential entries, in order. *)
Theorem Requests_flattens (d : spec_config) :
  v1_Requests (go_config d) =
  Ok (map (fun g => Some {| sidecred.Store := group_store g;
                            sidecred.Credentials :=
                              map Some (flat_map spec_flatten (group_creds g)) |})
          (config_requests d)).
Proof.
  unfold go_config.
  rewrite (Requests_spec _ (map (fun g => {| Store := group_store g;
                                             Creds := map go_node (group_creds g) |})
                                (config_requests d))).
  - f_equal. rewrite map_map. apply map_ext. intros g.
    unfold credentials_map. simpl. do 2 f_equal.
    induction (group_creds g) as [|n ns IH]; simpl; [done|].
    rewrite map_app, IH. f_equal. unfold node_out. by rewrite spec_flatten_eq.
  - simpl. by rewrite map_map.
  - apply Forall_map. apply Forall_forall. intros g _. simpl.
    apply Forall_map. apply Forall_forall. intros n _.
    eexists. apply spec_flatten_eq.
Qed.

(** [Validate] returns nil exactly when every check passes: a non-empty
    namespace; stores that are present, at least one, of known types, under
    pairwise distinct aliases; request groups that pass every check but the
    duplicate check; and flattened requests with pairwise distinct keys. *)
Theorem Validate_ok_iff `{Providers} (c : v1) :
  v1_Validate (Some c) = Ok tt <->
  CredentialNamespace c <> "" /\
  exists ss : list sidecred.StoreConfig,
    CredentialStores c = map Some ss /\ ss <> [] /\
    Forall known_store ss /\ NoDup (aliases ss) /\
    Forall (group_passes (aliases ss)) (CredentialRequests c) /\
    NoDup (doc_keys (CredentialRequests c)).
Proof.
  split; [apply Validate_Ok_inv|].
  intros (Hns & ss & Hss & Hne & Hk & Hnd & Hgs & Hndk).
  rewrite (Validate_stores_pass c ss) by done. unfold range.
  rewrite (requests_loop_ok _ (aliases ss)); [done| |done..|].
  - intros a. set_solver.
  - set_solver.
Qed.

Lemma Validate_ok_iff_witness :
  @v1_Validate sample_providers (Some document_r1) = Ok tt.
Proof.
  apply (proj2 (@Validate_ok_iff sample_providers document_r1)).
  split; [discriminate|]. exists [store_inprocess].
  split; [reflexivity|]. split; [discriminate|].
  split; [repeat constructor|]. split; [repeat constructor; apply not_elem_of_nil|].
  split.
  - constructor; [|constructor]. eexists. split; [reflexivity|]. split; [by left|].
    constructor; [|constructor]. split; [reflexivity|]. split; [reflexivity|].
    repeat constructor. apply provider_ok_random.
  - vm_compute. repeat constructor. apply not_elem_of_nil.
Defined.

Lemma validate_rejects_list_witness :
  exists err,
    credentialRequest_validate (Some node_both_populated) = Error err /\
    (err = NotForLists "name" \/ err = NotForLists "config" \/
     exists i r, err = ListEntryType i /\ [entry_a] !! i = Some r /\
                 sidecred.Type_ r <> "").
Proof.
  apply (validate_rejects_list node_both_populated inlined_random_x [entry_a]).
  - reflexivity.
  - reflexivity.
  - discriminate.
  - left. discriminate.
Defined.

(** * More on the loops, the normalizer, the validator and the accessors

    ** Where a loop stops *)

(** A loop that returns an error returned it from the body at some entry,
    after the entries before it went through. *)
Lemma range_from_Error_inv {A St : Type} (body : nat -> A -> St -> result St)
    (xs : list A) (i : nat) (s : St) (err : error) :
  range_from body i xs s = Error err ->
  exists before x after s',
    xs = before ++ x :: after /\
    range_from body i before s = Ok s' /\
    body (i + length before) x s' = Error err.
Proof.
  revert i s; induction xs as [|x xs IH]; intros i s H; [discriminate|].
  simpl in H. destruct (body i x s) as [s1| |] eqn:Hx; simpl in H; [| |discriminate].
  - apply IH in H as (before & y & after & s' & -> & Hb & Hy).
    exists (x :: before), y, after, s'. split; [done|]. split.
    + simpl. by rewrite Hx.
    + simpl. by replace (i + S (length before)) with (S i + length before) by lia.
  - injection H as <-. exists [], x, xs, s. split; [done|]. split; [done|].
    simpl. by rewrite Nat.add_0_r.
Qed.

(** ** The normalizer: the errors it returns, and what [flatten] reads *)

(** Every error of shorthand validation is one of three, and says what the
    node has: a list together with a name of its own; or with a
    configuration of its own and no name; or, with neither, a list entry
    that declares a type, every entry before it being present and without
    one. *)
Theorem validate_Error_sound (c : credentialRequest) (err : error) :
  credentialRequest_validate (Some c) = Error err ->
  List c <> [] /\
  exists inlined, CredentialRequest c = Some inlined /\
    ((err = NotForLists "name" /\ sidecred.Name inlined <> "") \/
     (err = NotForLists "config" /\ sidecred.Name inlined = "" /\
      sidecred.Config inlined <> "") \/
     (exists i r, err = ListEntryType i /\
        sidecred.Name inlined = "" /\ sidecred.Config inlined = "" /\
        List c !! i = Some (Some r) /\ sidecred.Type_ r <> "" /\
        forall j, j < i ->
          exists r', List c !! j = Some (Some r') /\ sidecred.Type_ r' = "")).
Proof.
  rewrite validate_unfold.
  destruct (decide (length (List c) = 0)) as [|Hz]; [discriminate|].
  assert (List c <> []) as Hl by (intros E; by rewrite E in Hz).
  destruct (CredentialRequest c) as [inlined|]; [|discriminate]. simpl.
  intros H. split; [done|]. exists inlined. split; [done|].
  destruct (decide (sidecred.Name inlined <> "")) as [Hn|Hn].
  { injection H as <-. by left. }
  assert (sidecred.Name inlined = "") as Hn'
    by (by destruct (decide (sidecred.Name inlined = ""))).
  destruct (decide (0 < String.length (sidecred.Config inlined))) as [Hc|Hc].
  { injection H as <-. right; left. by apply length_pos_nonempty in Hc. }
  assert (sidecred.Config inlined = "") as Hc'.
  { destruct (decide (sidecred.Config inlined = "")) as [|Hne]; [done|].
    by apply length_pos_nonempty in Hne. }
  right; right.
  destruct (range validate_body (List c) tt) as [[]| |] eqn:Hloop; [discriminate| |discriminate].
  simpl in H. injection H as ->.
  apply range_from_Error_inv in Hloop as (before & x & after & [] & Hxs & Hb & Hx).
  apply validate_loop_Ok_inv in Hb as (rs & -> & Hrs).
  unfold validate_body in Hx. destruct x as [r|]; [|discriminate]. simpl in Hx.
  destruct (decide (sidecred.Type_ r <> "")) as [Hr|]; [|discriminate].
  injection Hx as <-. rewrite length_map.
  exists (length rs), r. split; [done|]. split; [done|]. split; [done|].
  rewrite Hxs. split.
  { by rewrite lookup_app_r, length_map, Nat.sub_diag by (rewrite length_map; lia). }
  split; [done|]. intros j Hj.
  destruct (lookup_lt_is_Some_2 rs j Hj) as [r' Hr'].
  exists r'. split.
  - rewrite lookup_app_l by (rewrite length_map; lia).
    by rewrite list_lookup_fmap, Hr'.
  - rewrite Forall_lookup in Hrs. by apply (Hrs j).
Qed.

Lemma validate_Error_sound_witness :
  credentialRequest_validate (Some node_both_populated) = Error (NotForLists "name") /\
  List node_both_populated <> [].
Proof.
  split; [reflexivity|].
  exact (proj1 (validate_Error_sound node_both_populated (NotForLists "name") eq_refl)).
Defined.

(** Whenever [flatten] returns, its result has one request for a node
    without a list, the node's inlined request pointer itself, and else as
    many requests as the list has entries, the request at each index having
    the node's type and the name, rotation window and configuration of the
    list entry at that index. *)
Theorem flatten_Ok_spec (c : credentialRequest)
    (out : list (ptr sidecred.CredentialRequest)) :
  credentialRequest_flatten (Some c) = Ok out ->
  length out = Nat.max 1 (length (List c)) /\
  (List c = [] -> out = [CredentialRequest c]) /\
  (forall i r, List c !! i = Some r ->
     exists inlined entry, CredentialRequest c = Some inlined /\ r = Some entry /\
       out !! i = Some (Some {|
         sidecred.Type_ := sidecred.Type_ inlined;
         sidecred.Name := sidecred.Name entry;
         sidecred.RotationWindow := sidecred.RotationWindow entry;
         sidecred.Config := sidecred.Config entry |})).
Proof.
  intros (c' & [= <-] & [[Hl ->]|(inlined & rs & Hne & Hin & Hl & ->)])%flatten_Ok_inv.
  - rewrite Hl. split; [done|]. split; [done|]. intros i r Hr. by destruct i.
  - rewrite Hl, !length_map. split; [destruct rs; [done|simpl; lia]|].
    split; [intros E; by destruct rs|].
    intros i r Hr. rewrite list_lookup_fmap in Hr.
    destruct (rs !! i) as [entry|] eqn:Hi; [|discriminate]. injection Hr as <-.
    exists inlined, entry. split; [done|]. split; [done|].
    by rewrite list_lookup_fmap, Hi.
Qed.

Lemma flatten_Ok_spec_witness :
  credentialRequest_flatten (Some node_random_ab) =
    Ok [Some (resolved inlined_random entry_a); Some (resolved inlined_random entry_b)] /\
  length [Some (resolved inlined_random entry_a); Some (resolved inlined_random entry_b)] =
    Nat.max 1 (length (List node_random_ab)).
Proof.
  split; [reflexivity|].
  exact (proj1 (flatten_Ok_spec node_random_ab _ eq_refl)).
Defined.

(** With a list, [flatten] reads the type of the node and nothing else of
    its inlined request: two nodes with the same list whose inlined
    requests are both absent, or both present with the same type, flatten
    alike, whatever the names, rotation windows and configurations of
    their own. *)
Theorem flatten_reads_type_only (c c' : credentialRequest) :
  List c <> [] ->
  List c' = List c ->
  sidecred.Type_ <$> CredentialRequest c' = sidecred.Type_ <$> CredentialRequest c ->
  credentialRequest_flatten (Some c') = credentialRequest_flatten (Some c).
Proof.
  intros Hl Hl' Ht. rewrite !flatten_characterised, Hl'.
  destruct (decide (List c = [])); [done|].
  destruct (CredentialRequest c) as [inlined|], (CredentialRequest c') as [inlined'|];
    try discriminate; [|done].
  injection Ht as Ht. destruct (mapM id (List c)); [|done].
  f_equal. apply map_ext. intros r. unfold resolved. by rewrite Ht.
Qed.

Lemma flatten_reads_type_only_witness :
  credentialRequest_flatten (Some node_both_populated) =
  credentialRequest_flatten (Some {| CredentialRequest := Some inlined_random;
                                     List := [Some entry_a] |}).
Proof.
  apply flatten_reads_type_only; [discriminate | reflexivity | reflexivity].
Defined.

(** [flatten] returns no error: it returns requests or panics. *)
Lemma flatten_no_error (p : ptr credentialRequest) (err : error) :
  credentialRequest_flatten p <> Error err.
Proof.
  destruct p as [c|]; [|discriminate]. rewrite flatten_characterised.
  destruct (decide _); [discriminate|].
  by destruct (CredentialRequest c), (mapM id (List c)).
Qed.

(** ** The validator: the errors it returns *)

Section Errors.
Context {providers : Providers}.

Lemma validate_flattened_Error_inv (i ii : nat) (store : string)
    (p : ptr sidecred.CredentialRequest) (seen : gset (string * string)) (err : error) :
  validate_flattened i ii store p seen = Error err ->
  exists r, p = Some r /\
    ((exists e, err = CredsParseConfig i ii e /\
        parseProviderConfig (sidecred.Type_ r) (sidecred.Config r) = Error e) \/
     (exists config e, err = CredsInvalidConfig i ii e /\
        parseProviderConfig (sidecred.Type_ r) (sidecred.Config r) = Ok config /\
        sidecred.Validate_value config = Some e) \/
     (err = CredsDuplicated i ii store (sidecred.Name r) /\ key store r ∈ seen)).
Proof.
  unfold validate_flattened. destruct p as [r|]; [|discriminate]. simpl.
  intros H. exists r. split; [done|].
  destruct (parseProviderConfig _ _) as [config|e|] eqn:Hp; [| |discriminate].
  - destruct (sidecred.Validate_value config) as [e|] eqn:Hv.
    + injection H as <-. right; left. by exists config, e.
    + fold (key store r) in H. destruct (decide _) as [Hin|]; [|discriminate].
      injection H as <-. by right; right.
  - injection H as <-. left. by exists e.
Qed.

(** Every error of [Validate] is justified by the configuration, at the
    position the error names. *)
Theorem Validate_Error_sound (c : v1) (err : error) :
  v1_Validate (Some c) = Error err -> violation c err.
Proof.
  rewrite Validate_unfold.
  destruct (decide (CredentialNamespace c = "")) as [Hns|_].
  { intros [= <-]. by constructor. }
  destruct (decide (length (CredentialStores c) = 0)) as [Hz|_].
  { intros [= <-]. constructor. by apply length_zero_iff_nil. }
  destruct (range validate_store (CredentialStores c) ∅) as [stores|e|] eqn:Hstores;
    [|intros [= <-]|discriminate].
  2:{ (* an error of the loop over the stores *)
    apply range_from_Error_inv in Hstores as (before & x & after & seen & Hss & Hb & Hx).
    apply validate_stores_Ok_inv in Hb as (ss & -> & _ & _ & _ & ->).
    rewrite length_map in Hx. simpl in Hx.
    unfold validate_store in Hx. destruct x as [s|]; [|discriminate]. simpl in Hx.
    assert (CredentialStores c !! length ss = Some (Some s)) as Hs.
    { rewrite Hss. apply list_lookup_middle. by rewrite length_map. }
    destruct (known_store_type _) eqn:Hk.
    - destruct (decide _) as [Hin|]; [|discriminate]. injection Hx as <-.
      apply elem_of_union in Hin as [Hin|Hin]; [|set_solver].
      apply elem_of_list_to_set, list_elem_of_fmap in Hin as (s' & Ha & Hs').
      apply list_elem_of_lookup in Hs' as [j Hj].
      apply (violation_store_alias c (length ss) j s s'); [|  |done|done].
      + by eapply lookup_lt_Some.
      + rewrite Hss, lookup_app_l by (rewrite length_map; by eapply lookup_lt_Some).
        by rewrite list_lookup_fmap, Hj.
    - injection Hx as <-. constructor; [done|].
      intros Hkn%known_store_type_spec. congruence. }
  simpl. apply validate_stores_Ok_inv in Hstores as (ss & Hss & _ & _ & _ & ->).
  assert (forall a, a ∈ (list_to_set (aliases ss) ∪ ∅ : gset string) <-> a ∈ aliases ss)
    as Hknown by (intros a; set_solver).
  destruct (range _ (CredentialRequests c) ∅) as [?|e|] eqn:Hreqs;
    [discriminate|intros [= <-]|discriminate].
  (* an error of the loop over the request groups *)
  apply range_from_Error_inv in Hreqs as (gs & x & gs' & seen & Hgs & Hb & Hx).
  apply (requests_loop_Ok_inv _ _ Hknown) in Hb as (Hpass & _ & _ & ->).
  simpl in Hx. unfold validate_request in Hx.
  destruct x as [g|]; [|discriminate]. simpl in Hx.
  assert (CredentialRequests c !! length gs = Some (Some g)) as Hg.
  { rewrite Hgs. by apply list_lookup_middle. }
  assert (take (length gs) (CredentialRequests c) = gs) as Htg.
  { rewrite Hgs. by rewrite take_app_length. }
  destruct (decide (Store g ∈ _)) as [_|Hn].
  2:{ injection Hx as <-. constructor; [done|].
      intros s Hs Ha. apply Hn, Hknown. rewrite Hss in Hs.
      apply list_elem_of_fmap in Hs as (s' & [= <-] & Hs'). rewrite <- Ha.
      apply list_elem_of_fmap. by exists s. }
  apply range_from_Error_inv in Hx as (ns & n & ns' & seen & Hns & Hb & Hx).
  apply creds_loop_Ok_inv in Hb as (_ & _ & _ & ->).
  simpl in Hx. rewrite validate_cred_unfold in Hx.
  assert (Creds g !! length ns = Some n) as Hn.
  { rewrite Hns. by apply list_lookup_middle. }
  assert (take (length ns) (Creds g) = ns) as Htn.
  { rewrite Hns. by rewrite take_app_length. }
  destruct (credentialRequest_validate n) as [[]|e'|] eqn:Hv; [| |discriminate].
  2:{ injection Hx as <-. by eapply violation_shorthand. }
  destruct (credentialRequest_flatten n) as [flat|e'|] eqn:Hf;
    [|by apply flatten_no_error in Hf|discriminate].
  simpl in Hx.
  apply range_from_Error_inv in Hx as (fs & r & fs' & seen & Hfs & Hb & Hx).
  apply flattened_loop_Ok_inv in Hb as (rs & -> & _ & _ & _ & ->).
  unfold flattened_loop in Hx.
  apply validate_flattened_Error_inv in Hx
    as (r' & -> & [(e' & -> & Hp)|[(config & e' & -> & Hp & Hval)|[-> Hin]]]).
  - eapply violation_parse; [done..| |done]. rewrite Hfs. set_solver.
  - eapply violation_config; [done..| |done|done]. rewrite Hfs. set_solver.
  - apply (violation_duplicate c (length gs) (length ns) (length rs) g n flat r');
      [done..| |].
    + rewrite Hfs. apply list_lookup_middle. by rewrite length_map.
    + unfold keys_before. rewrite Htg, Htn, Hfs.
      replace (take (length rs) (map Some rs ++ Some r' :: fs')) with (map Some rs)
        by (by rewrite <- (length_map Some rs), take_app_length).
      rewrite (omap_id_Some rs), !elem_of_app.
      rewrite !elem_of_union, !elem_of_list_to_set, elem_of_empty in Hin. tauto.
Qed.

(** A request group whose store is the alias of no store is reported as an
    undefined store, with its index, whatever its credential entries are,
    when the checks before it pass: the namespace, the stores, and every
    earlier group with its entries and the keys of its requests. *)
Theorem Validate_undefined_store (c : v1) (ss : list sidecred.StoreConfig)
    (gs_before : list (ptr requestV1)) (g : requestV1) (gs_after : list (ptr requestV1)) :
  CredentialNamespace c <> "" ->
  CredentialStores c = map Some ss ->
  ss <> [] ->
  Forall known_store ss ->
  NoDup (aliases ss) ->
  CredentialRequests c = gs_before ++ Some g :: gs_after ->
  Forall (group_passes (aliases ss)) gs_before ->
  NoDup (doc_keys gs_before) ->
  Store g ∉ aliases ss ->
  v1_Validate (Some c) = Error (UndefinedStore (length gs_before) (Store g)).
Proof.
  intros Hns Hss Hne Hk Hnd Hgs Hbefore Hndk Hstore.
  assert (forall a, a ∈ (list_to_set (aliases ss) ∪ ∅ : gset string) <-> a ∈ aliases ss)
    as Hknown by (intros a; set_solver).
  rewrite (Validate_stores_pass c ss) by done. rewrite Hgs. unfold range.
  rewrite range_from_app, (requests_loop_ok _ (aliases ss) Hknown)
    by (done || set_solver).
  simpl. unfold validate_request at 1. simpl.
  destruct (decide (Store g ∈ _)) as [Hin|_]; [by apply Hknown in Hin|done].
Qed.

End Errors.

Lemma Validate_Error_sound_witness :
  @v1_Validate sample_providers (Some document_duplicate_nodes) =
    Error (CredsDuplicated 0 1 "inprocess" "b") /\
  @violation sample_providers document_duplicate_nodes
    (CredsDuplicated 0 1 "inprocess" "b").
Proof.
  assert (@v1_Validate sample_providers (Some document_duplicate_nodes) =
          Error (CredsDuplicated 0 1 "inprocess" "b")) as H
    by (vm_compute; reflexivity).
  split; [exact H|].
  exact (@Validate_Error_sound sample_providers document_duplicate_nodes _ H).
Defined.

Lemma Validate_undefined_store_witness :
  @v1_Validate sample_providers (Some document_undefined_store) =
  Error (UndefinedStore 1 "missing").
Proof.
  apply (@Validate_undefined_store sample_providers document_undefined_store
           [store_inprocess]
           [Some {| Store := "inprocess"; Creds := [Some node_r1] |}]
           {| Store := "missing"; Creds := [None; Some node_both_populated] |} []).
  - discriminate.
  - reflexivity.
  - discriminate.
  - repeat constructor.
  - repeat constructor. apply not_elem_of_nil.
  - reflexivity.
  - constructor; [|constructor]. eexists. split; [reflexivity|]. split; [by left|].
    constructor; [|constructor]. split; [reflexivity|]. split; [reflexivity|].
    repeat constructor. apply provider_ok_random.
  - vm_compute. repeat constructor. apply not_elem_of_nil.
  - simpl. rewrite elem_of_cons, elem_of_nil. intros [H|[]]. discriminate.
Defined.

(** ** The registry *)

Section Registry.
Context {providers : Providers}.

(** The registry decodes configurations of the five recognized types only:
    for any other type it returns the unknown-type error, whatever the
    configuration, and for a recognized type it never does. *)
Theorem parseProviderConfig_unknown_iff (t config : string) :
  parseProviderConfig t config = Error (UnknownType t) <-> ~ recognized t.
Proof.
  unfold parseProviderConfig, recognized, unmarshal.
  rewrite !elem_of_cons, elem_of_nil.
  repeat (destruct (decide _) as [->|?];
    [split; [by destruct (UnmarshalInto _ _)|intros Hn; exfalso; apply Hn; tauto]|]).
  split; [|done]. intros _. tauto.
Qed.

Lemma parseProviderConfig_Ok_recognized (t config : string)
    (c : sidecred.ValidatableValue) :
  parseProviderConfig t config = Ok c -> recognized t.
Proof.
  unfold parseProviderConfig, recognized. rewrite !elem_of_cons, elem_of_nil.
  repeat (destruct (decide _) as [->|?]; [tauto|]). discriminate.
Qed.

(** When [Validate] returns nil the configuration is safe to read: it is
    not nil; [Namespace] returns a non-empty string; [Stores] returns
    stores that are all present, at least one; and [Requests] returns
    credentials maps that are all present, each for the alias of a store,
    whose requests are all present and of a recognized type. *)
Theorem Validate_ok_accessors (cfg : ptr v1) :
  v1_Validate cfg = Ok tt ->
  exists (namespace : string) (ss : list sidecred.StoreConfig)
         (ms : list sidecred.CredentialsMap),
    v1_Namespace cfg = Ok namespace /\ namespace <> "" /\
    v1_Stores cfg = Ok (map Some ss) /\ ss <> [] /\
    v1_Requests cfg = Ok (map Some ms) /\
    Forall (fun m =>
        sidecred.Store m ∈ aliases ss /\
        exists rs, sidecred.Credentials m = map Some rs /\
                   Forall (fun r => recognized (sidecred.Type_ r)) rs) ms.
Proof.
  destruct cfg as [c|]; [|discriminate].
  intros (Hns & ss & Hss & Hne & _ & _ & Hgs & _)%Validate_Ok_inv.
  exists (CredentialNamespace c), ss.
  assert (exists gs, CredentialRequests c = map Some gs /\
            Forall (fun g => Store g ∈ aliases ss /\ Forall node_passes (Creds g)) gs)
    as (gs & Hc & Hpass).
  { clear -Hgs. induction Hgs as [|p l (g & -> & Hs & Hn) _ (gs & -> & IH)].
    - by exists [].
    - exists (g :: gs). split; [done|]. by constructor. }
  exists (map (fun g => {| sidecred.Store := Store g;
                           sidecred.Credentials := flat_map node_out (Creds g) |}) gs).
  split; [done|]. split; [done|]. split; [by rewrite <- Hss|]. split; [done|]. split.
  - rewrite (Requests_spec c gs Hc); [by rewrite map_map|].
    eapply Forall_impl; [exact Hpass|]. intros g [_ Hn]. by apply creds_out in Hn as [? _].
  - apply Forall_map. eapply Forall_impl; [exact Hpass|]. intros g [Hs Hn]. simpl.
    split; [done|]. apply creds_out in Hn as (_ & -> & Hp).
    eexists. split; [done|]. eapply Forall_impl; [exact Hp|].
    intros r (pc & Hpc & _). by eapply parseProviderConfig_Ok_recognized.
Qed.

End Registry.

Lemma Validate_ok_accessors_witness :
  @v1_Validate sample_providers (Some document_r1) = Ok tt /\
  exists (namespace : string) (ss : list sidecred.StoreConfig)
         (ms : list sidecred.CredentialsMap),
    v1_Namespace (Some document_r1) = Ok namespace /\ namespace <> "" /\
    v1_Stores (Some document_r1) = Ok (map Some ss) /\ ss <> [] /\
    v1_Requests (Some document_r1) = Ok (map Some ms) /\
    Forall (fun m =>
        sidecred.Store m ∈ aliases ss /\
        exists rs, sidecred.Credentials m = map Some rs /\
                   Forall (fun r => recognized (sidecred.Type_ r)) rs) ms.
Proof.
  assert (@v1_Validate sample_providers (Some document_r1) = Ok tt) as H
    by (vm_compute; reflexivity).
  split; [exact H|].
  exact (@Validate_ok_accessors sample_providers (Some document_r1) H).
Defined.

(** ** The accessors: when [Requests] returns *)

Lemma range_from_no_error {A St : Type} (body : nat -> A -> St -> result St)
    (xs : list A) (i : nat) (s : St) (err : error) :
  (forall j x s', body j x s' <> Error err) ->
  range_from body i xs s <> Error err.
Proof.
  intros Hbody. revert i s; induction xs as [|x xs IH]; intros i s; [discriminate|].
  simpl. destruct (body i x s) as [s'|e|] eqn:Hx; simpl; [apply IH| |discriminate].
  intros [= ->]. by apply Hbody in Hx.
Qed.

Lemma Requests_no_error (cfg : ptr v1) (err : error) : v1_Requests cfg <> Error err.
Proof.
  destruct cfg as [c|]; [|discriminate].
  change (v1_Requests (Some c)) with (range requests_body (CredentialRequests c) []).
  apply range_from_no_error. intros j p out. unfold requests_body.
  destruct p as [g|]; [|discriminate]. rewrite credentialsMap_unfold.
  destruct (range credentials_body (Creds g) []) as [l|e|] eqn:Hl; [discriminate| |discriminate].
  exfalso. revert Hl. apply range_from_no_error. intros k n acc. unfold credentials_body.
  destruct (credentialRequest_flatten n) as [l|e'|] eqn:Hn; [discriminate| |discriminate].
  by apply flatten_no_error in Hn.
Qed.

Lemma Forall_is_Some_map {A : Type} (l : list (ptr A)) :
  Forall is_Some l <-> exists xs, l = map Some xs.
Proof.
  split.
  - induction 1 as [|p l [x ->] _ (xs & ->)]; [by exists []|]. by exists (x :: xs).
  - intros (xs & ->). apply Forall_map, Forall_forall. intros x _. by eexists.
Qed.

Lemma complete_node_returns (n : ptr credentialRequest) :
  complete_node n <-> node_returns n.
Proof.
  rewrite node_returns_iff. unfold complete_node.
  split; intros (e & -> & [Hl|H]); exists e; (split; [done|]); [by left| |by left|].
  - right. destruct H as [[inlined Hin] (rs & Hl)%Forall_is_Some_map].
    by exists inlined, rs.
  - right. destruct H as (inlined & rs & Hin & Hl). split; [by eexists|].
    apply Forall_is_Some_map. by exists rs.
Qed.

Lemma complete_groups_return (l : list (ptr requestV1)) :
  Forall complete_group l <->
  exists gs, l = map Some gs /\ Forall (fun g => Forall node_returns (Creds g)) gs.
Proof.
  split.
  - induction 1 as [|p l (g & -> & Hg) _ (gs & -> & IH)]; [by exists []|].
    exists (g :: gs). split; [done|]. constructor; [|done].
    eapply Forall_impl; [exact Hg|]. intros n. apply complete_node_returns.
  - intros (gs & -> & H). apply Forall_map. eapply Forall_impl; [exact H|].
    intros g Hg. exists g. split; [done|].
    eapply Forall_impl; [exact Hg|]. intros n. apply complete_node_returns.
Qed.

(** [Requests] returns or panics, and never returns an error. It returns
    exactly when every request group is present and every credential entry
    is present and, if it has a list, has its inlined request and all its
    list entries; it then returns one credentials map per request group. It
    panics otherwise. *)
Theorem Requests_outcome (c : v1) :
  (Forall complete_group (CredentialRequests c) /\
   exists out, v1_Requests (Some c) = Ok out /\
               length out = length (CredentialRequests c)) \/
  (~ Forall complete_group (CredentialRequests c) /\ v1_Requests (Some c) = Panic).
Proof.
  destruct (v1_Requests (Some c)) as [out|e|] eqn:H.
  - left. apply Requests_Ok_inv in H as (gs & Hc & Hgs & Hout).
    split; [apply complete_groups_return; by exists gs|].
    eexists. split; [done|]. by rewrite Hout, Hc, !length_map.
  - by apply Requests_no_error in H.
  - right. split; [|done]. intros (gs & Hc & Hgs)%complete_groups_return.
    rewrite (Requests_spec c gs) in H by done. discriminate.
Qed.

(** ** The validator: validity does not depend on the order *)

Section Order.
Context {providers : Providers}.

(** [Validate] returns nil when every check passes. *)
Lemma Validate_Ok_intro (c : v1) (ss : list sidecred.StoreConfig) :
  CredentialNamespace c <> "" ->
  CredentialStores c = map Some ss ->
  ss <> [] ->
  Forall known_store ss ->
  NoDup (aliases ss) ->
  Forall (group_passes (aliases ss)) (CredentialRequests c) ->
  NoDup (doc_keys (CredentialRequests c)) ->
  v1_Validate (Some c) = Ok tt.
Proof.
  intros Hns Hss Hne Hk Hnd Hgs Hndk.
  rewrite (Validate_stores_pass c ss) by done. unfold range.
  rewrite (requests_loop_ok _ (aliases ss)); [done| |done..|].
  - intros a. set_solver.
  - set_solver.
Qed.

(** Whether a configuration is valid does not depend on the order of its
    stores or of its request groups: if [Validate] returns nil, it returns
    nil for the same stores and the same request groups in any other order. *)
Theorem Validate_ok_permutation (c c' : v1) :
  CredentialNamespace c' = CredentialNamespace c ->
  CredentialStores c' ≡ₚ CredentialStores c ->
  CredentialRequests c' ≡ₚ CredentialRequests c ->
  v1_Validate (Some c) = Ok tt ->
  v1_Validate (Some c') = Ok tt.
Proof.
  intros Hns Hstores Hreqs
    (Hn & ss & Hss & Hne & Hk & Hnd & Hgs & Hndk)%Validate_Ok_inv.
  rewrite Hss in Hstores.
  apply Permutation_map_inv in Hstores as (ss' & Hss' & Hperm).
  assert (aliases ss' ≡ₚ aliases ss) as Ha.
  { unfold aliases. by rewrite Hperm. }
  apply (Validate_Ok_intro c' ss').
  - by rewrite Hns.
  - done.
  - intros ->. apply Permutation_nil_r in Hperm. done.
  - by rewrite <- Hperm.
  - by rewrite Ha.
  - rewrite Hreqs. eapply Forall_impl; [exact Hgs|].
    intros p (g & -> & Hs & Hp). exists g. split; [done|]. split; [|done].
    by rewrite Ha.
  - unfold doc_keys in *. by rewrite Hreqs.
Qed.

End Order.

Lemma Validate_ok_permutation_witness :
  @v1_Validate sample_providers (Some document_two_stores) = Ok tt /\
  @v1_Validate sample_providers (Some document_two_stores_swapped) = Ok tt.
Proof.
  assert (@v1_Validate sample_providers (Some document_two_stores) = Ok tt) as H
    by (vm_compute; reflexivity).
  split; [exact H|].
  apply (@Validate_ok_permutation sample_providers document_two_stores
           document_two_stores_swapped).
  - reflexivity.
  - apply perm_swap.
  - apply perm_swap.
  - exact H.
Defined.

(** ** The validator: what it does not read *)

Lemma range_from_map {A B St : Type} (body : nat -> A -> St -> result St)
    (body' : nat -> B -> St -> result St) (f : A -> B) :
  (forall i x s, body' i (f x) s = body i x s) ->
  forall xs i s, range_from body' i (map f xs) s = range_from body i xs s.
Proof.
  intros Hbody. induction xs as [|x xs IH]; intros i s; simpl; [done|].
  rewrite Hbody. destruct (body i x s); simpl; [apply IH|done..].
Qed.

Lemma validate_forget (n : ptr credentialRequest) :
  credentialRequest_validate (forget_node <$> n) = credentialRequest_validate n.
Proof.
  destruct n as [c|]; [|done]. simpl. rewrite !validate_unfold. simpl.
  rewrite length_map. destruct (decide _); [done|].
  destruct (CredentialRequest c) as [inlined|]; [|done]. simpl.
  destruct (decide _); [done|]. destruct (decide _); [done|].
  unfold range. rewrite (range_from_map validate_body validate_body); [done|].
  by intros i [r|] [].
Qed.

Lemma flatten_forget_loop (c : credentialRequest)
    (l acc : list (ptr sidecred.CredentialRequest)) (i : nat) :
  range_from (flatten_body (forget_node c)) i (map (fmap forget_request) l)
    (map (fmap forget_request) acc) =
  do out <- range_from (flatten_body c) i l acc; Ok (map (fmap forget_request) out).
Proof.
  revert i acc; induction l as [|r l IH]; intros i acc; simpl; [done|].
  unfold flatten_body at 1 3. simpl.
  destruct (CredentialRequest c) as [inlined|]; [|done]. simpl.
  destruct r as [r|]; [|done]. simpl.
  rewrite <- (IH (S i)). f_equal. by rewrite map_app.
Qed.

Lemma flatten_forget (n : ptr credentialRequest) :
  credentialRequest_flatten (forget_node <$> n) =
  do out <- credentialRequest_flatten n; Ok (map (fmap forget_request) out).
Proof.
  destruct n as [c|]; [|done]. simpl. rewrite !flatten_unfold. simpl.
  rewrite length_map. destruct (decide _); [done|].
  unfold range. apply (flatten_forget_loop c (List c) []).
Qed.

Section Frame.
Context {providers : Providers}.

Lemma validate_flattened_forget (i ii : nat) (store : string)
    (r : ptr sidecred.CredentialRequest) (seen : gset (string * string)) :
  validate_flattened i ii store (forget_request <$> r) seen =
  validate_flattened i ii store r seen.
Proof. by destruct r. Qed.

Lemma validate_cred_forget (i : nat) (store : string) (ii : nat)
    (n : ptr credentialRequest) (seen : gset (string * string)) :
  validate_cred i store ii (forget_node <$> n) seen = validate_cred i store ii n seen.
Proof.
  rewrite !validate_cred_unfold, validate_forget, flatten_forget.
  destruct (credentialRequest_validate n) as [[]| |]; [|done..].
  destruct (credentialRequest_flatten n) as [out| |]; [|done..]. simpl.
  unfold range. apply range_from_map. intros j r s. apply validate_flattened_forget.
Qed.

Lemma validate_request_forget (stores : gset string) (i : nat)
    (g : ptr requestV1) (seen : gset (string * string)) :
  validate_request stores i (forget_group <$> g) seen = validate_request stores i g seen.
Proof.
  destruct g as [g|]; [|done]. unfold validate_request. simpl.
  destruct (decide _); [|done]. unfold range. apply range_from_map.
  intros ii n s. apply validate_cred_forget.
Qed.

(** [Validate] reads neither the version nor any rotation window: two
    configurations that differ in these alone get the same result, whether
    nil, an error or a panic. *)
Theorem Validate_reads_no_rotation_window (c c' : v1) :
  forget_config c' = forget_config c ->
  v1_Validate (Some c') = v1_Validate (Some c).
Proof.
  assert (forall d, v1_Validate (Some (forget_config d)) = v1_Validate (Some d))
    as Hforget.
  { intros d. rewrite !Validate_unfold. simpl.
    destruct (decide _); [done|]. destruct (decide _); [done|].
    destruct (range validate_store (CredentialStores d) ∅) as [stores| |]; [|done..].
    simpl. unfold range.
    rewrite (range_from_map (validate_request stores) (validate_request stores)); [done|].
    intros i g s. apply validate_request_forget. }
  intros H. by rewrite <- (Hforget c'), H, Hforget.
Qed.

End Frame.

Lemma Validate_reads_no_rotation_window_witness :
  @v1_Validate sample_providers (Some document_duplicate_groups_rotating) =
  @v1_Validate sample_providers (Some document_duplicate_groups).
Proof.
  apply (@Validate_reads_no_rotation_window sample_providers
           document_duplicate_groups document_duplicate_groups_rotating).
  reflexivity.
Defined.
